(** * kitcat: the index transaction engine and the staging walk

    A shallow embedding of [internal/storage/index.go] (package [storage]) and
    of the staging file of package [core] ([AddFile], [AddAll]).

    Go maps are [gmap]s, [int64] fields are [Z] (the code only compares and
    copies them), [string] and [[]byte] are Rocq strings (lists of 8-bit
    characters).  A Go [error] result is an [option error] ([None] is [nil]),
    a [(T, error)] result is [error + T].  What the two files call but do not
    define (the Go standard library, the content store, the ignore rules, the
    path check) is a field of a type class, so every statement below holds for
    whatever those functions do; so are the outcomes of creating the
    directory, of taking the lock and of the final write.

    The file has four parts: the embedding of the two source files, the
    vocabulary of the statements, an instance on which everything runs, and
    the properties with their proofs. *)

From Stdlib Require Import ZArith Ascii String List DecimalString.
From stdpp Require Import base tactics option list gmap fin_maps strings sorting.

(** ** Errors *)

(** Go error values.  [SkipDir] and [SkipAll] are the two sentinels of
    [path/filepath]; [PathError] stands for what the operating system reports
    ([os.Lstat], reading a directory); [errorString] is [errors.New] and
    [fmt.Errorf] without [%w]; [wrapError] is [fmt.Errorf] with [%w]. *)
Inductive error :=
| SkipDir
| SkipAll
| PathError (msg : string)
| errorString (msg : string)
| wrapError (msg : string) (err : error).

Definition Error (e : error) : string :=
  match e with
  | SkipDir => "skip this directory"
  | SkipAll => "skip everything and stop the walk"
  | PathError msg => msg
  | errorString msg => msg
  | wrapError msg _ => msg
  end.

(** [fmt.Errorf(prefix + "%w", err)]. *)
Definition Errorf_w (prefix : string) (err : error) : error :=
  wrapError (prefix +:+ Error err) err.

Definition is_SkipDir (e : error) : bool :=
  match e with SkipDir => true | _ => false end.

Definition is_SkipAll (e : error) : bool :=
  match e with SkipAll => true | _ => false end.

Definition LF : string := String "010"%char EmptyString.

(** ** Data model *)

Record IndexEntry := mkIndexEntry {
  Hash : string;
  ModTime : Z;
  Size : Z
}.

Record FileInfo := mkFileInfo {
  fi_Size : Z;
  fi_ModTimeUnix : Z;
  fi_IsDir : bool
}.

(** What the program does that is visible besides the index file: the calls
    of the content store and the lines printed. *)
Inductive Event :=
| Hashed (fullPath : string)
| Printed (line : string).

(** The index file on disk. *)
Inductive IndexFile :=
| NoFile
| Unreadable (err : error)
| FileBytes (content : string).

(** A directory tree as [os.Lstat] and the directory listing show it to
    [filepath.Walk]. *)
#[warnings="-register-all"]
Inductive fsnode :=
| FsFile (size mtime : Z)
| FsDir (size mtime : Z) (readErr : option string) (children : list (string * fsnode))
| FsErr (lstatErr : string).

(** ** The environment *)

(** The Go standard library, as far as the two files use it. *)
Class GoLib := {
  (** the order in which [range] enumerates a map: any order will do, see
      [range_enumerates] *)
  range : ∀ V : Type, gmap string V → list (string * V);
  json_Unmarshal_rawMap : string → error + gmap string string;
  json_Unmarshal_string : string → error + string;
  json_Unmarshal_IndexEntry : string → error + IndexEntry;
  json_MarshalIndent : gmap string IndexEntry → error + string;
  bytes_TrimSpace : string → string;
  filepath_Abs : string → error + string;
  filepath_Rel : string → string → error + string;
  filepath_Clean : string → string;
  filepath_Join : string → string → string;
  PathSeparator : ascii
}.

Arguments range {_ _} _.

(** What the rest of the repository provides to the two files. *)
Class Collaborators := {
  RepoDir : string;
  IgnorePattern : Type;
  LoadIgnorePatterns : error + list IgnorePattern;
  ShouldIgnore : string → list IgnorePattern → gmap string string → bool;
  IsSafePath : string → bool;
  HashAndStoreFile : string → error + string
}.

(** The state of the machine outside the index file; it is the same before
    and after an operation. *)
Class World := {
  (** [os.Stat(p)] fails with an error that [os.IsNotExist] accepts *)
  Stat_IsNotExist : string → bool;
  (** the tree found at an absolute path *)
  fs : string → fsnode;
  MkdirAll_err : option error;
  lock_err : option error;
  SafeWriteFile_err : option error
}.

(** A Go map enumerates each of its keys once, in no particular order. *)
Definition range_enumerates `{GoLib} : Prop :=
  ∀ (V : Type) (m : gmap string V), range m ≡ₚ map_to_list m.

Section Storage.
Context `{GoLib} `{World}.

Definition indexPath : string := ".kitcat/index".

(** The loop [for path, entry := range index { proxy[path] = entry.Hash }],
    which [LoadIndex], [UpdateIndex], [AddFile] and [AddAll] all contain. *)
Definition hash_view (index : gmap string IndexEntry) : gmap string string :=
  foldl (λ proxy kv, <[kv.1 := Hash kv.2]> proxy) ∅ (range index).

(** The body of the loop of [LoadIndexWithMeta] over [rawMap]. *)
Fixpoint load_entries (kvs : list (string * string))
    (index : gmap string IndexEntry) (out : list Event)
    : (error + gmap string IndexEntry) * list Event :=
  match kvs with
  | [] => (inr index, out)
  | (path, rawValue) :: rest =>
    let rawValue := bytes_TrimSpace rawValue in
    match rawValue with
    | EmptyString => load_entries rest index out
    | String c _ =>
      if Ascii.eqb c "034" then
        match json_Unmarshal_string rawValue with
        | inl err =>
          (inl (Errorf_w ("failed to decode legacy entry for " +:+ path +:+ ": ") err), out)
        | inr hash =>
          load_entries rest (<[path := mkIndexEntry hash 0 0]> index) out
        end
      else if Ascii.eqb c "{" then
        match json_Unmarshal_IndexEntry rawValue with
        | inl err =>
          (inl (Errorf_w ("failed to decode entry for " +:+ path +:+ ": ") err), out)
        | inr entry => load_entries rest (<[path := entry]> index) out
        end
      else
        load_entries rest index
          (out ++ [Printed ("warning: unknown index format for " +:+ path
                            +:+ ", skipping" +:+ LF)])
    end
  end.

Definition LoadIndexWithMeta (d : IndexFile) (out : list Event)
    : (error + gmap string IndexEntry) * list Event :=
  match d with
  | NoFile => (inr ∅, out)
  | Unreadable err => (inl (Errorf_w "could not read index file: " err), out)
  | FileBytes content =>
    match content with
    | EmptyString => (inr ∅, out)
    | _ =>
      match json_Unmarshal_rawMap content with
      | inl err => (inl (Errorf_w "index file corruption: " err), out)
      | inr rawMap => load_entries (range rawMap) ∅ out
      end
    end
  end.

Definition LoadIndex (d : IndexFile) (out : list Event)
    : (error + gmap string string) * list Event :=
  match LoadIndexWithMeta d out with
  | (inl err, out) => (inl err, out)
  | (inr rawIndex, out) => (inr (hash_view rawIndex), out)
  end.

(** Modelled from the spec: [SafeWriteFile], the atomic file write of package
    [storage], which is not among the files at hand ("must never expose a
    partially written file"): it either fails and leaves the file as it was,
    or replaces the whole content. *)
Definition SafeWriteFile (data : string) (d : IndexFile) : option error * IndexFile :=
  match SafeWriteFile_err with
  | Some err => (Some err, d)
  | None => (None, FileBytes data)
  end.

(** The in-memory side of a transaction: the index the callback mutates and
    what has been printed and hashed so far. *)
Record Txn := mkTxn {
  tx_index : gmap string IndexEntry;
  tx_out : list Event
}.

(** [UpdateIndexWithMeta].  The lock of package [storage] is taken and, by
    the [defer], released on every return; only whether taking it fails is
    modelled.  A callback reaches the index through the map it is handed. *)
Definition UpdateIndexWithMeta (fn : Txn → option error * Txn)
    (d : IndexFile) (out : list Event) : option error * IndexFile * list Event :=
  match MkdirAll_err with
  | Some err => (Some err, d, out)
  | None =>
    match lock_err with
    | Some err => (Some err, d, out)
    | None =>
      match LoadIndexWithMeta d out with
      | (inl err, out) => (Some err, d, out)
      | (inr index, out) =>
        match fn (mkTxn index out) with
        | (Some err, t) => (Some err, d, tx_out t)
        | (None, t) =>
          match json_MarshalIndent (tx_index t) with
          | inl err => (Some (Errorf_w "failed to marshal index: " err), d, tx_out t)
          | inr data =>
            let '(err, d') := SafeWriteFile data d in (err, d', tx_out t)
          end
        end
      end
    end
  end.

(** The two loops of [UpdateIndex] after the legacy callback has run. *)
Definition collect_missing (proxy : gmap string string)
    (kvs : list (string * IndexEntry)) : list string :=
  foldl (λ toDelete kv,
           match proxy !! kv.1 with
           | Some _ => toDelete
           | None => toDelete ++ [kv.1]
           end) [] kvs.

Definition delete_all {V} (toDelete : list string) (m : gmap string V) : gmap string V :=
  foldl (λ m path, delete path m) m toDelete.

Definition apply_updates (kvs : list (string * string))
    (realIndex : gmap string IndexEntry) : gmap string IndexEntry :=
  foldl (λ realIndex kv,
           let '(path, newHash) := kv in
           match realIndex !! path with
           | Some existing =>
             if decide (Hash existing = newHash) then realIndex
             else <[path := mkIndexEntry newHash 0 0]> realIndex
           | None => <[path := mkIndexEntry newHash 0 0]> realIndex
           end) realIndex kvs.

(** The callback [UpdateIndex] hands to [UpdateIndexWithMeta].  The legacy
    callback [fn] mutates the proxy map in place and may fail. *)
Definition UpdateIndex_fn
    (fn : gmap string string → list Event → option error * gmap string string * list Event)
    (t : Txn) : option error * Txn :=
  let realIndex := tx_index t in
  let proxy := hash_view realIndex in
  match fn proxy (tx_out t) with
  | (Some err, _, out) => (Some err, mkTxn realIndex out)
  | (None, proxy, out) =>
    let toDelete := collect_missing proxy (range realIndex) in
    let realIndex := delete_all toDelete realIndex in
    let realIndex := apply_updates (range proxy) realIndex in
    (None, mkTxn realIndex out)
  end.

Definition UpdateIndex
    (fn : gmap string string → list Event → option error * gmap string string * list Event)
    (d : IndexFile) (out : list Event) : option error * IndexFile * list Event :=
  UpdateIndexWithMeta (UpdateIndex_fn fn) d out.

(** [WriteIndex]: the whole index replaced by a plain map of hashes, with
    no load. *)
Definition WriteIndex (simpleIndex : gmap string string) (d : IndexFile)
    : option error * IndexFile :=
  let richIndex : gmap string IndexEntry :=
    foldl (λ richIndex kv, <[kv.1 := mkIndexEntry kv.2 0 0]> richIndex) ∅
          (range simpleIndex) in
  match MkdirAll_err with
  | Some err => (Some err, d)
  | None =>
    match lock_err with
    | Some err => (Some err, d)
    | None =>
      match json_MarshalIndent richIndex with
      | inl err => (Some (Errorf_w "failed to marshal index: " err), d)
      | inr data => SafeWriteFile data d
      end
    end
  end.

End Storage.

(** ** [filepath.Walk] *)

(** What [filepath.Walk] hands to its callback besides the path: the
    [FileInfo] and a [nil] error, or an error ([info] is [nil] when
    [os.Lstat] failed, and the directory's own when listing it failed). *)
Inductive WalkArg :=
| Entry (info : FileInfo)
| Failed (info : option FileInfo) (err : error).

Definition walk_arg (n : fsnode) : WalkArg :=
  match n with
  | FsFile size mtime => Entry (mkFileInfo size mtime false)
  | FsDir size mtime None _ => Entry (mkFileInfo size mtime true)
  | FsDir size mtime (Some msg) _ =>
    Failed (Some (mkFileInfo size mtime true)) (PathError msg)
  | FsErr msg => Failed None (PathError msg)
  end.

(** [SkipDir] coming back from a child is dropped unless the child is a
    file that [os.Lstat] could read. *)
Definition drops_SkipDir (child : fsnode) : bool :=
  match child with FsFile _ _ => false | _ => true end.

Section Walk.
Context `{GoLib} `{World} {S : Type}.
Variable walkFn : string → WalkArg → S → option error * S.

(** The unexported [walk] of [path/filepath], on a node [os.Lstat] has
    already been asked about. *)
Fixpoint walk (path : string) (n : fsnode) (s : S) {struct n} : option error * S :=
  match n with
  | FsDir _ _ None children =>
    match walkFn path (walk_arg n) s with
    | (Some err1, s) => (Some err1, s)
    | (None, s) =>
      (fix walk_names (names : list (string * fsnode)) (s : S) {struct names} :=
         match names with
         | [] => (None, s)
         | (name, child) :: rest =>
           match walk (filepath_Join path name) child s with
           | (None, s) => walk_names rest s
           | (Some err, s) =>
             if is_SkipDir err && drops_SkipDir child then walk_names rest s
             else (Some err, s)
           end
         end) children s
    end
  | _ => walkFn path (walk_arg n) s
  end.

(** The loop of [walk] over the names of a directory. *)
Fixpoint walk_names (path : string) (names : list (string * fsnode)) (s : S)
    : option error * S :=
  match names with
  | [] => (None, s)
  | (name, child) :: rest =>
    match walk (filepath_Join path name) child s with
    | (None, s) => walk_names path rest s
    | (Some err, s) =>
      if is_SkipDir err && drops_SkipDir child then walk_names path rest s
      else (Some err, s)
    end
  end.

Definition Walk (root : string) (s : S) : option error * S :=
  match walk root (fs root) s with
  | (Some err, s) =>
    if is_SkipDir err || is_SkipAll err then (None, s) else (Some err, s)
  | (None, s) => (None, s)
  end.

End Walk.

(** ** Staging *)

Section Staging.
Context `{GoLib} `{Collaborators} `{World}.

(** [strings.HasPrefix(cleanPath, RepoDir+string(os.PathSeparator)) ||
    cleanPath == RepoDir]. *)
Definition in_RepoDir (cleanPath : string) : bool :=
  String.prefix (RepoDir +:+ String PathSeparator EmptyString) cleanPath
  || bool_decide (cleanPath = RepoDir).

(** The test of the fast path: an entry exists and carries the size and the
    modification time the file has now. *)
Definition metadata_matches (index : gmap string IndexEntry)
    (cleanPath : string) (info : FileInfo) : bool :=
  match index !! cleanPath with
  | Some entry =>
    (Size entry =? fi_Size info)%Z && (ModTime entry =? fi_ModTimeUnix info)%Z
  | None => false
  end.

Definition entry_of (hash : string) (info : FileInfo) : IndexEntry :=
  mkIndexEntry hash (fi_ModTimeUnix info) (fi_Size info).

(** The callback [AddFile] passes to [filepath.Walk]. *)
Definition AddFile_walkFn (absRepoRoot : string)
    (ignorePatterns : list IgnorePattern) (proxyIndex : gmap string string)
    (fullPath : string) (arg : WalkArg) (t : Txn) : option error * Txn :=
  match arg with
  | Failed _ err => (Some err, t)
  | Entry info =>
    match filepath_Rel absRepoRoot fullPath with
    | inl _ =>
      (Some (errorString ("file " +:+ fullPath +:+ " is outside repository")), t)
    | inr relPath =>
      let cleanPath := filepath_Clean relPath in
      if bool_decide (cleanPath = ".") then (None, t)
      else if in_RepoDir cleanPath then
        if fi_IsDir info then (Some SkipDir, t) else (None, t)
      else if fi_IsDir info then (None, t)
      else if negb (IsSafePath cleanPath) then (None, t)
      else if ShouldIgnore cleanPath ignorePatterns proxyIndex then (None, t)
      else if metadata_matches (tx_index t) cleanPath info then (None, t)
      else
        match HashAndStoreFile fullPath with
        | inl err =>
          (Some (Errorf_w ("failed to hash " +:+ fullPath +:+ ": ") err),
           mkTxn (tx_index t) (tx_out t ++ [Hashed fullPath]))
        | inr hash =>
          (None,
           mkTxn (<[cleanPath := entry_of hash info]> (tx_index t))
                 (tx_out t ++ [Hashed fullPath]))
        end
    end
  end.

(** The callback [AddFile] passes to [UpdateIndexWithMeta]. *)
Definition AddFile_fn (absInputPath absRepoRoot : string) (t : Txn)
    : option error * Txn :=
  match LoadIgnorePatterns with
  | inl err => (Some err, t)
  | inr ignorePatterns =>
    let proxyIndex := hash_view (tx_index t) in
    Walk (AddFile_walkFn absRepoRoot ignorePatterns proxyIndex) absInputPath t
  end.

Definition AddFile (inputPath : string) (d : IndexFile) (out : list Event)
    : option error * IndexFile * list Event :=
  if Stat_IsNotExist RepoDir then
    (Some (errorString "not a kitcat repository (run `kitcat init`)"), d, out)
  else
    match filepath_Abs inputPath with
    | inl err => (Some (Errorf_w "failed to resolve absolute path: " err), d, out)
    | inr absInputPath =>
      match filepath_Abs "." with
      | inl err => (Some (Errorf_w "failed to resolve repo root: " err), d, out)
      | inr absRepoRoot =>
        if Stat_IsNotExist absInputPath then
          (Some (errorString ("path does not exist: " +:+ inputPath)), d, out)
        else
          UpdateIndexWithMeta (AddFile_fn absInputPath absRepoRoot) d out
      end
    end.

(** The state of the walk of [AddAll]: the index and the output, and the
    map [seen]. *)
Record Pass := mkPass {
  ps_index : gmap string IndexEntry;
  ps_seen : gmap string bool;
  ps_out : list Event
}.

(** [seen[path]]: a missing key reads as [false]. *)
Definition seen_at (seen : gmap string bool) (path : string) : bool :=
  default false (seen !! path).

(** The callback [AddAll] passes to [filepath.Walk]. *)
Definition AddAll_walkFn (rootDir : string)
    (ignorePatterns : list IgnorePattern) (proxyIndex : gmap string string)
    (fullPath : string) (arg : WalkArg) (p : Pass) : option error * Pass :=
  match arg with
  | Failed _ err => (Some err, p)
  | Entry info =>
    match filepath_Rel rootDir fullPath with
    | inl _ => (None, p)
    | inr relPath =>
      let cleanPath := filepath_Clean relPath in
      if bool_decide (cleanPath = ".") then (None, p)
      else if negb (IsSafePath cleanPath) then (None, p)
      else if in_RepoDir cleanPath then
        if fi_IsDir info then (Some SkipDir, p) else (None, p)
      else if fi_IsDir info then (None, p)
      else if ShouldIgnore cleanPath ignorePatterns proxyIndex then (None, p)
      else
        let seen := <[cleanPath := true]> (ps_seen p) in
        if metadata_matches (ps_index p) cleanPath info then
          (None, mkPass (ps_index p) seen (ps_out p))
        else
          match HashAndStoreFile fullPath with
          | inl err =>
            (None,
             mkPass (ps_index p) seen
               (ps_out p ++ [Hashed fullPath;
                  Printed ("warning: could not add file " +:+ cleanPath +:+ ": "
                           +:+ Error err +:+ LF)]))
          | inr hash =>
            (None,
             mkPass (<[cleanPath := entry_of hash info]> (ps_index p)) seen
               (ps_out p ++ [Hashed fullPath]))
          end
    end
  end.

(** The first loop of the deletion pass of [AddAll]. *)
Definition collect_unseen (seen : gmap string bool)
    (kvs : list (string * IndexEntry)) : list string :=
  foldl (λ toDelete kv,
           if negb (seen_at seen kv.1) then toDelete ++ [kv.1] else toDelete)
        [] kvs.

(** The callback [AddAll] passes to [UpdateIndexWithMeta]. *)
Definition AddAll_fn (t : Txn) : option error * Txn :=
  match LoadIgnorePatterns with
  | inl err => (Some err, t)
  | inr ignorePatterns =>
    let seen : gmap string bool := ∅ in
    let proxyIndex := hash_view (tx_index t) in
    match filepath_Abs "." with
    | inl err => (Some (Errorf_w "failed to resolve absolute path: " err), t)
    | inr rootDir =>
      match Walk (AddAll_walkFn rootDir ignorePatterns proxyIndex) rootDir
                 (mkPass (tx_index t) seen (tx_out t)) with
      | (Some err, p) => (Some err, mkTxn (ps_index p) (ps_out p))
      | (None, p) =>
        let toDelete := collect_unseen (ps_seen p) (range (ps_index p)) in
        (None, mkTxn (delete_all toDelete (ps_index p)) (ps_out p))
      end
    end
  end.

Definition AddAll (d : IndexFile) (out : list Event)
    : option error * IndexFile * list Event :=
  UpdateIndexWithMeta AddAll_fn d out.

End Staging.

(** * The vocabulary of the statements *)

(** ** The legacy adapter *)

(** What [apply_updates] leaves at a key. *)
Definition updated (old : option IndexEntry) (newHash : string) : IndexEntry :=
  match old with
  | Some existing =>
    if decide (Hash existing = newHash) then existing else mkIndexEntry newHash 0 0
  | None => mkIndexEntry newHash 0 0
  end.

(** ** Loading *)

Section LoadTerms.
Context `{GoLib}.

(** The byte [LoadIndexWithMeta] switches on: the first one left by
    [bytes.TrimSpace], if any. *)
Definition first_significant_byte (rawValue : string) : option ascii :=
  match bytes_TrimSpace rawValue with
  | EmptyString => None
  | String c _ => Some c
  end.

Definition quote : ascii := "034".
Definition brace : ascii := "{".

(** A value decodes when it has the shape its first byte announces. *)
Definition decodes (rawValue : string) : Prop :=
  (first_significant_byte rawValue = Some quote →
     ∃ hash, json_Unmarshal_string (bytes_TrimSpace rawValue) = inr hash)
  ∧ (first_significant_byte rawValue = Some brace →
     ∃ entry, json_Unmarshal_IndexEntry (bytes_TrimSpace rawValue) = inr entry).

Definition unknown_format_warning (path : string) : Event :=
  Printed ("warning: unknown index format for " +:+ path +:+ ", skipping" +:+ LF).

(** The errors with which a load gives up on the content of the file. *)
Inductive IndexCorruption : error → Prop :=
| corrupt_document err :
    IndexCorruption (Errorf_w "index file corruption: " err)
| corrupt_legacy_entry path err :
    IndexCorruption (Errorf_w ("failed to decode legacy entry for " +:+ path +:+ ": ") err)
| corrupt_entry path err :
    IndexCorruption (Errorf_w ("failed to decode entry for " +:+ path +:+ ": ") err).

(** What one turn of the loop does with its key and value. *)
Inductive Loaded :=
| Stored (entry : IndexEntry)
| Skipped (warned : bool)
| Broken (err : error).

Definition load_one (path rawValue : string) : Loaded :=
  match first_significant_byte rawValue with
  | None => Skipped false
  | Some c =>
    if Ascii.eqb c quote then
      match json_Unmarshal_string (bytes_TrimSpace rawValue) with
      | inl err =>
        Broken (Errorf_w ("failed to decode legacy entry for " +:+ path +:+ ": ") err)
      | inr hash => Stored (mkIndexEntry hash 0 0)
      end
    else if Ascii.eqb c brace then
      match json_Unmarshal_IndexEntry (bytes_TrimSpace rawValue) with
      | inl err =>
        Broken (Errorf_w ("failed to decode entry for " +:+ path +:+ ": ") err)
      | inr entry => Stored entry
      end
    else Skipped true
  end.

(** The warning a value gets whose first significant byte announces neither
    a string nor an object. *)
Definition warning_for (kv : string * string) : option Event :=
  match first_significant_byte kv.2 with
  | Some c =>
    if Ascii.eqb c quote || Ascii.eqb c brace then None
    else Some (unknown_format_warning kv.1)
  | None => None
  end.



End LoadTerms.

(** ** Walking *)

(** One call of the callback: the path and what came with it. *)
Definition Visit : Type := string * WalkArg.

Section WalkTerms.
Context `{GoLib} `{World} {S : Type}.
Variable walkFn : string → WalkArg → S → option error * S.

(** The state after, and the error returned by, one call. *)
Definition step (v : Visit) (s : S) : S := (walkFn v.1 v.2 s).2.
Definition ret (v : Visit) (s : S) : option error := (walkFn v.1 v.2 s).1.

(** The callback, made to note each call with the state it found. *)
Definition logged (path : string) (arg : WalkArg) (sl : S * list (Visit * S))
    : option error * (S * list (Visit * S)) :=
  let '(r, s') := walkFn path arg sl.1 in (r, (s', sl.2 ++ [((path, arg), sl.1)])).

(** The calls of [Walk root] from state [s], in order. *)
Definition Walk_log (root : string) (s : S) : list (Visit * S) :=
  (Walk logged root (s, [])).2.2.

(** Each call finds the state the call before left. *)
Fixpoint chain (s : S) (l : list (Visit * S)) (s' : S) : Prop :=
  match l with
  | [] => s' = s
  | (v, pre) :: l => pre = s ∧ chain (step v pre) l s'
  end.

(** No call returned an error other than [SkipDir]. *)
Definition quiet (l : list (Visit * S)) : Prop :=
  Forall (λ vp, ∀ e, ret vp.1 vp.2 = Some e → is_SkipDir e = true) l.

(** An error of the walk other than [SkipDir] is the error of its last call. *)
Definition outcome (r : option error) (l : list (Visit * S)) : Prop :=
  match r with
  | None => quiet l
  | Some e =>
    if is_SkipDir e then quiet l
    else ∃ l0 v pre, l = l0 ++ [(v, pre)] ∧ quiet l0 ∧ ret v pre = Some e
  end.

(** Each call is about a node of the tree. *)
Definition from_tree (l : list (Visit * S)) : Prop :=
  Forall (λ vp, ∃ n, vp.1.2 = walk_arg n) l.

(** What a walk is said to do below: it makes the calls [l] from [s],
    which take the state to [s'], and returns [r]. *)
Definition runs (path : string) (n : fsnode) : Prop :=
  ∀ s vs, ∃ r s' l,
    walk logged path n (s, vs) = (r, (s', vs ++ l))
    ∧ walk walkFn path n s = (r, s')
    ∧ chain s l s'
    ∧ outcome r l
    ∧ from_tree l.

End WalkTerms.

Section SimTerms.
Context `{GoLib}.

(** Two walks of one node that return the same error and keep two states
    related. *)
Definition in_step {S1 S2 : Type} (R : S1 → S2 → Prop)
    (fn1 : string → WalkArg → S1 → option error * S1)
    (fn2 : string → WalkArg → S2 → option error * S2)
    (path : string) (n : fsnode) : Prop :=
  ∀ s1 s2, R s1 s2 →
    (walk fn1 path n s1).1 = (walk fn2 path n s2).1
    ∧ R (walk fn1 path n s1).2 (walk fn2 path n s2).2.

End SimTerms.

(** ** Staging *)

Section StagingTerms.
Context `{GoLib} `{Collaborators} `{World}.

(** A call for a file that gets as far as the ignore rules: its canonical
    path and its [FileInfo].  Nothing here looks at the index. *)
Definition eligible (rootDir : string) (v : Visit) : option (string * FileInfo) :=
  match v.2 with
  | Failed _ _ => None
  | Entry info =>
    match filepath_Rel rootDir v.1 with
    | inl _ => None
    | inr relPath =>
      let cleanPath := filepath_Clean relPath in
      if bool_decide (cleanPath = ".") then None
      else if negb (IsSafePath cleanPath) then None
      else if in_RepoDir cleanPath then None
      else if fi_IsDir info then None
      else Some (cleanPath, info)
    end
  end.

(** A call that passes the ignore rules as well: the file is accepted. *)
Definition accepted (rootDir : string) (ignorePatterns : list IgnorePattern)
    (proxyIndex : gmap string string) (v : Visit) : option (string * FileInfo) :=
  match eligible rootDir v with
  | Some (cleanPath, info) =>
    if ShouldIgnore cleanPath ignorePatterns proxyIndex then None
    else Some (cleanPath, info)
  | None => None
  end.

(** The error the callback of [AddAll] returns. *)
Definition AddAll_ctl (rootDir fullPath : string) (arg : WalkArg) : option error :=
  match arg with
  | Failed _ err => Some err
  | Entry info =>
    match filepath_Rel rootDir fullPath with
    | inl _ => None
    | inr relPath =>
      let cleanPath := filepath_Clean relPath in
      if bool_decide (cleanPath = ".") then None
      else if negb (IsSafePath cleanPath) then None
      else if in_RepoDir cleanPath && fi_IsDir info then Some SkipDir
      else None
    end
  end.

(** The line [AddAll] prints for a file it could not hash. *)
Definition hash_warning (cleanPath : string) (err : error) : Event :=
  Printed ("warning: could not add file " +:+ cleanPath +:+ ": " +:+ Error err +:+ LF).

(** What the callback of [AddAll] does with an accepted file. *)
Definition stage (fullPath cleanPath : string) (info : FileInfo) (p : Pass) : Pass :=
  let seen := <[cleanPath := true]> (ps_seen p) in
  if metadata_matches (ps_index p) cleanPath info then
    mkPass (ps_index p) seen (ps_out p)
  else
    match HashAndStoreFile fullPath with
    | inl err =>
      mkPass (ps_index p) seen
        (ps_out p ++ [Hashed fullPath; hash_warning cleanPath err])
    | inr hash =>
      mkPass (<[cleanPath := entry_of hash info]> (ps_index p)) seen
        (ps_out p ++ [Hashed fullPath])
    end.

(** One call of the callback of [AddAll], as far as the state goes. *)
Definition pass_step (rootDir : string) (ignorePatterns : list IgnorePattern)
    (proxyIndex : gmap string string) (p : Pass) (v : Visit) : Pass :=
  match accepted rootDir ignorePatterns proxyIndex v with
  | Some (cleanPath, info) => stage v.1 cleanPath info p
  | None => p
  end.

(** The calls the walk of [AddAll] makes; they depend on the tree alone. *)
Definition AddAll_visits (rootDir : string) : list Visit :=
  (Walk_log (λ path arg (_ : unit), (AddAll_ctl rootDir path arg, tt)) rootDir tt).*1.

(** The error with which the walk of [AddAll] ends. *)
Definition AddAll_walk_err (rootDir : string) : option error :=
  (Walk (λ path arg (_ : unit), (AddAll_ctl rootDir path arg, tt)) rootDir tt).1.

(** The test of the fast path on the entry found, if any. *)
Definition entry_matches (old : option IndexEntry) (info : FileInfo) : bool :=
  match old with
  | Some entry =>
    (Size entry =? fi_Size info)%Z && (ModTime entry =? fi_ModTimeUnix info)%Z
  | None => false
  end.

(** What staging an accepted file does to the entry at its own key. *)
Definition stage_entry (fullPath : string) (info : FileInfo)
    (old : option IndexEntry) : option IndexEntry :=
  if entry_matches old info then old
  else
    match HashAndStoreFile fullPath with
    | inl _ => old
    | inr hash => Some (entry_of hash info)
    end.

(** The effect of one call on the entry at key [k]. *)
Definition key_step (rootDir : string) (ignorePatterns : list IgnorePattern)
    (proxyIndex : gmap string string) (k : string) (old : option IndexEntry)
    (v : Visit) : option IndexEntry :=
  match accepted rootDir ignorePatterns proxyIndex v with
  | Some (cleanPath, info) =>
    if decide (cleanPath = k) then stage_entry v.1 info old else old
  | None => old
  end.

(** The canonical paths of the files among the calls. *)
Definition eligible_paths (rootDir : string) (visits : list Visit) : list string :=
  omap (λ v, fst <$> eligible rootDir v) visits.

(** What the callback of [AddFile] does with an accepted file. *)
Definition file_stage (fullPath cleanPath : string) (info : FileInfo) (t : Txn) : Txn :=
  if metadata_matches (tx_index t) cleanPath info then t
  else
    match HashAndStoreFile fullPath with
    | inl _ => mkTxn (tx_index t) (tx_out t ++ [Hashed fullPath])
    | inr hash =>
      mkTxn (<[cleanPath := entry_of hash info]> (tx_index t))
            (tx_out t ++ [Hashed fullPath])
    end.

(** One call of the callback of [AddFile], as far as the state goes. *)
Definition file_step (absRepoRoot : string) (ignorePatterns : list IgnorePattern)
    (proxyIndex : gmap string string) (t : Txn) (v : Visit) : Txn :=
  match accepted absRepoRoot ignorePatterns proxyIndex v with
  | Some (cleanPath, info) => file_stage v.1 cleanPath info t
  | None => t
  end.

(** What staging an accepted file adds to the output of [AddAll]. *)
Definition stage_events (fullPath cleanPath : string) (info : FileInfo)
    (old : option IndexEntry) : list Event :=
  if entry_matches old info then []
  else
    match HashAndStoreFile fullPath with
    | inl err => [Hashed fullPath; hash_warning cleanPath err]
    | inr _ => [Hashed fullPath]
    end.

End StagingTerms.

(** * A worked instance

    One choice of the standard library, of the collaborators and of the
    machine, small enough to run the definitions above by computation: a
    decoder and an encoder for the JSON the index file holds, paths below
    [/repo], exact-name ignore rules that spare tracked files, and a content
    store that refuses one file. *)

Module Sample.

Definition dq : string := String "034" EmptyString.

(** JSON texts are written below with ['] for the double quote. *)
Fixpoint json_text (s : string) : string :=
  match s with
  | EmptyString => EmptyString
  | String c rest =>
    String (if Ascii.eqb c "'" then "034"%char else c) (json_text rest)
  end.

Fixpoint trim_left (s : string) : string :=
  match s with
  | EmptyString => EmptyString
  | String c rest => if Ascii.is_space c then trim_left rest else s
  end.

Definition TrimSpace (s : string) : string :=
  String.rev (trim_left (String.rev (trim_left s))).

Definition cons_fst (c : ascii) (r : string * string) : string * string :=
  (String c r.1, r.2).

(** After an opening quote: the body up to the closing quote, and the rest. *)
Fixpoint scan_string (esc : bool) (s : string) : option (string * string) :=
  match s with
  | EmptyString => None
  | String c rest =>
    if esc then cons_fst c <$> scan_string false rest
    else if Ascii.eqb c "092" then cons_fst c <$> scan_string true rest
    else if Ascii.eqb c "034" then Some (EmptyString, rest)
    else cons_fst c <$> scan_string false rest
  end.

Definition opens (c : ascii) : bool := Ascii.eqb c "{" || Ascii.eqb c "[".
Definition closes (c : ascii) : bool := Ascii.eqb c "}" || Ascii.eqb c "]".

(** After an opening brace or bracket: the text up to the matching closing
    one, included, and the rest. *)
Fixpoint scan_nested (depth : nat) (in_str esc : bool) (s : string)
    : option (string * string) :=
  match s with
  | EmptyString => None
  | String c rest =>
    if in_str then
      if esc then cons_fst c <$> scan_nested depth true false rest
      else if Ascii.eqb c "092" then cons_fst c <$> scan_nested depth true true rest
      else if Ascii.eqb c "034" then cons_fst c <$> scan_nested depth false false rest
      else cons_fst c <$> scan_nested depth true false rest
    else if Ascii.eqb c "034" then cons_fst c <$> scan_nested depth true false rest
    else if opens c then cons_fst c <$> scan_nested (S depth) false false rest
    else if closes c then
      match depth with
      | O => Some (String c EmptyString, rest)
      | S depth => cons_fst c <$> scan_nested depth false false rest
      end
    else cons_fst c <$> scan_nested depth false false rest
  end.

(** A number or a literal: up to a comma, a closing sign or a space. *)
Fixpoint scan_scalar (s : string) : string * string :=
  match s with
  | EmptyString => (EmptyString, EmptyString)
  | String c rest =>
    if Ascii.eqb c "," || closes c || Ascii.is_space c then (EmptyString, s)
    else cons_fst c (scan_scalar rest)
  end.

(** The text of the value [s] starts with, and the rest. *)
Definition scan_value (s : string) : option (string * string) :=
  match s with
  | EmptyString => None
  | String c rest =>
    if Ascii.eqb c "034" then
      (λ r, (String c (r.1 +:+ dq), r.2)) <$> scan_string false rest
    else if opens c then cons_fst c <$> scan_nested 0 false false rest
    else
      match scan_scalar s with
      | (EmptyString, _) => None
      | r => Some r
      end
  end.

Fixpoint unescape (s : string) : option string :=
  match s with
  | EmptyString => Some EmptyString
  | String c rest =>
    if Ascii.eqb c "092" then
      match rest with
      | EmptyString => None
      | String c2 rest2 =>
        if Ascii.eqb c2 "034" || Ascii.eqb c2 "092" || Ascii.eqb c2 "/"
        then String c2 <$> unescape rest2
        else if Ascii.eqb c2 "n" then String "010"%char <$> unescape rest2
        else if Ascii.eqb c2 "t" then String "009"%char <$> unescape rest2
        else None
      end
    else String c <$> unescape rest
  end.

(** The members of an object, after its opening brace, as raw texts. *)
Fixpoint parse_members (fuel : nat) (s : string) (acc : gmap string string)
    : option (gmap string string * string) :=
  match fuel with
  | O => None
  | S fuel =>
    match trim_left s with
    | String "034" rest =>
      match scan_string false rest with
      | Some (body, rest) =>
        match unescape body, trim_left rest with
        | Some key, String ":" rest =>
          match scan_value (trim_left rest) with
          | Some (raw, rest) =>
            match trim_left rest with
            | String "," rest => parse_members fuel rest (<[key := raw]> acc)
            | String "}" rest => Some (<[key := raw]> acc, rest)
            | _ => None
            end
          | None => None
          end
        | _, _ => None
        end
      | None => None
      end
    | _ => None
    end
  end.

Definition parse_object (s : string) : option (gmap string string) :=
  match trim_left s with
  | String "{" rest =>
    match trim_left rest with
    | String "}" rest => if decide (trim_left rest = EmptyString) then Some ∅ else None
    | body =>
      match parse_members (String.length s) body ∅ with
      | Some (m, rest) => if decide (trim_left rest = EmptyString) then Some m else None
      | None => None
      end
    end
  | _ => None
  end.

Definition Unmarshal_rawMap (content : string) : error + gmap string string :=
  match parse_object content with
  | Some m => inr m
  | None => inl (errorString "invalid character looking for beginning of value")
  end.

Definition Unmarshal_string (raw : string) : error + string :=
  match raw with
  | String "034" rest =>
    match scan_string false rest with
    | Some (body, EmptyString) =>
      match unescape body with
      | Some s => inr s
      | None => inl (errorString "invalid character in string escape code")
      end
    | _ => inl (errorString "unexpected end of JSON input")
    end
  | _ => inl (errorString "json: cannot unmarshal into Go value of type string")
  end.

Definition Unmarshal_int64 (field : string) (raw : option string) : error + Z :=
  match raw with
  | None => inr 0%Z
  | Some raw =>
    match NilZero.int_of_string raw with
    | Some z => inr (Z.of_int z)
    | None =>
      inl (errorString ("json: cannot unmarshal into Go struct field IndexEntry."
                        +:+ field +:+ " of type int64"))
    end
  end.

Definition Unmarshal_IndexEntry (raw : string) : error + IndexEntry :=
  match parse_object raw with
  | None => inl (errorString "invalid character looking for beginning of value")
  | Some fields =>
    match from_option Unmarshal_string (inr EmptyString) (fields !! "h"),
          Unmarshal_int64 "m" (fields !! "m"), Unmarshal_int64 "s" (fields !! "s") with
    | inr h, inr m, inr s => inr (mkIndexEntry h m s)
    | inl err, _, _ | _, inl err, _ | _, _, inl err => inl err
    end
  end.

Fixpoint escape (s : string) : string :=
  match s with
  | EmptyString => EmptyString
  | String c rest =>
    if Ascii.eqb c "034" || Ascii.eqb c "092" then String "092" (String c (escape rest))
    else String c (escape rest)
  end.

Definition quoted (s : string) : string := dq +:+ escape s +:+ dq.

Definition decimal (z : Z) : string := NilZero.string_of_int (Z.to_int z).

Definition entry_text (e : IndexEntry) : string :=
  "{" +:+ LF +:+ "    " +:+ quoted "h" +:+ ": " +:+ quoted (Hash e)
  +:+ (if decide (ModTime e = 0%Z) then EmptyString
       else "," +:+ LF +:+ "    " +:+ quoted "m" +:+ ": " +:+ decimal (ModTime e))
  +:+ (if decide (Size e = 0%Z) then EmptyString
       else "," +:+ LF +:+ "    " +:+ quoted "s" +:+ ": " +:+ decimal (Size e))
  +:+ LF +:+ "  }".

Fixpoint join_lines (sep : string) (l : list string) : string :=
  match l with
  | [] => EmptyString
  | [x] => x
  | x :: rest => x +:+ sep +:+ join_lines sep rest
  end.

(** [json.MarshalIndent(index, "", "  ")]: keys in byte order. *)
Definition MarshalIndent (index : gmap string IndexEntry) : error + string :=
  match merge_sort (λ a b : string * IndexEntry, String.le a.1 b.1) (map_to_list index) with
  | [] => inr "{}"
  | kvs =>
    inr ("{" +:+ LF
         +:+ join_lines ("," +:+ LF)
               ((λ kv : string * IndexEntry,
                   "  " +:+ quoted kv.1 +:+ ": " +:+ entry_text kv.2) <$> kvs)
         +:+ LF +:+ "}")
  end.

Fixpoint strip_prefix (p s : string) : option string :=
  match p, s with
  | EmptyString, _ => Some s
  | String a p, String b s => if Ascii.eqb a b then strip_prefix p s else None
  | _, EmptyString => None
  end.

Definition Abs (path : string) : error + string :=
  if decide (path = ".") then inr "/repo"
  else if String.prefix "/" path then inr path
  else inr ("/repo/" +:+ path).

Definition Rel (basepath targpath : string) : error + string :=
  if decide (targpath = basepath) then inr "."
  else
    match strip_prefix (basepath +:+ "/") targpath with
    | Some rel => inr rel
    | None =>
      inl (errorString ("Rel: can't make " +:+ targpath +:+ " relative to " +:+ basepath))
    end.

Definition lib : GoLib := {|
  range := λ V m, map_to_list m;
  json_Unmarshal_rawMap := Unmarshal_rawMap;
  json_Unmarshal_string := Unmarshal_string;
  json_Unmarshal_IndexEntry := Unmarshal_IndexEntry;
  json_MarshalIndent := MarshalIndent;
  bytes_TrimSpace := TrimSpace;
  filepath_Abs := Abs;
  filepath_Rel := Rel;
  filepath_Clean := λ path, path;
  filepath_Join := λ dir name, dir +:+ "/" +:+ name;
  PathSeparator := "/"
|}.

(** The content store: a digest for each file, and one file it cannot read. *)
Definition HashAndStore (fullPath : string) : error + string :=
  if decide (fullPath = "/repo/locked.bin") then
    inl (PathError "open /repo/locked.bin: permission denied")
  else if decide (fullPath = "/repo/a.txt") then
    inr "aaf4c61ddcc5e8a2dabede0f3b482cd9aea9434d"
  else inr "da39a3ee5e6b4b0d3255bfef95601890afd80709".

Definition repo : Collaborators := {|
  RepoDir := ".kitcat";
  IgnorePattern := string;
  LoadIgnorePatterns := inr ["build.log"];
  ShouldIgnore := λ path patterns tracked,
    bool_decide (path ∈ patterns) && bool_decide (tracked !! path = None);
  IsSafePath := λ path, negb (String.prefix ".." path || String.prefix "/" path);
  HashAndStoreFile := HashAndStore
|}.

Definition tree : fsnode :=
  FsDir 4096 1700000100 None
    [(".kitcat", FsDir 4096 1700000090 None [("index", FsFile 120 1700000090)]);
     ("a.txt", FsFile 5 1700000000);
     ("build.log", FsFile 9 1700000050);
     ("locked.bin", FsFile 7 1700000060);
     ("src", FsDir 4096 1700000080 None [("main.go", FsFile 120 1700000070)])].

(** A repository at [/repo] with the tree above. *)
Definition world : World := {|
  Stat_IsNotExist := λ path,
    negb (bool_decide (path ∈ [".kitcat"; "/repo"; "/repo/a.txt"; "/repo/locked.bin";
                                 "/repo/src"]));
  fs := λ path,
    if decide (path = "/repo") then tree
    else if decide (path = "/repo/a.txt") then FsFile 5 1700000000
    else if decide (path = "/repo/locked.bin") then FsFile 7 1700000060
    else if decide (path = "/repo/src") then
      FsDir 4096 1700000080 None [("main.go", FsFile 120 1700000070)]
    else FsErr ("lstat " +:+ path +:+ ": no such file or directory");
  MkdirAll_err := None;
  lock_err := None;
  SafeWriteFile_err := None
|}.

(** A directory that was never initialised: one file and no [.kitcat]. *)
Definition bare_world : World := {|
  Stat_IsNotExist := λ path, negb (bool_decide (path ∈ ["/repo"; "/repo/a.txt"]));
  fs := λ path,
    if decide (path = "/repo") then
      FsDir 4096 1700000100 None [("a.txt", FsFile 5 1700000000)]
    else if decide (path = "/repo/a.txt") then FsFile 5 1700000000
    else FsErr ("lstat " +:+ path +:+ ": no such file or directory");
  MkdirAll_err := None;
  lock_err := None;
  SafeWriteFile_err := None
|}.

(** Data for the examples at the end. *)

#[local] Existing Instances lib repo world.

(** The tree of the instance, staged from an empty repository. *)
Definition staged : IndexFile :=
  Eval vm_compute in (AddAll NoFile []).1.2.

Definition staged_out : list Event :=
  Eval vm_compute in (AddAll NoFile []).2.

Definition staged_index : gmap string IndexEntry :=
  <["a.txt" := mkIndexEntry "aaf4c61ddcc5e8a2dabede0f3b482cd9aea9434d" 1700000000 5]>
    (<["src/main.go" := mkIndexEntry "da39a3ee5e6b4b0d3255bfef95601890afd80709"
                          1700000070 120]> ∅).

Definition a_txt : FileInfo := mkFileInfo 5 1700000000 false.

Definition patterns : list (@IgnorePattern repo) := ["build.log"].

(** A callback that changes the map it is given and then fails. *)
Definition refuse (t : Txn) : option error * Txn :=
  (Some (errorString "refused"),
   mkTxn (<["x" := mkIndexEntry "h" 0 0]> (tx_index t)) (tx_out t ++ [Printed "tried"])).

(** An index file with a legacy entry, a rich entry and a number. *)
Definition mixed : string :=
  json_text "{'a': 'h1', 'b': {'h': 'h2', 'm': 3, 's': 4}, 'c': 17}".

Definition mixed_rawMap : gmap string string :=
  <["a" := json_text "'h1'"]>
    (<["b" := json_text "{'h': 'h2', 'm': 3, 's': 4}"]> (<["c" := "17"]> ∅)).

Definition mixed_index : gmap string IndexEntry :=
  <["a" := mkIndexEntry "h1" 0 0]> (<["b" := mkIndexEntry "h2" 3 4]> ∅).

(** An index file whose rich entry has a number for its hash. *)
Definition broken : string := json_text "{'a': 'h1', 'b': {'h': 7}}".

(** An index that still tracks a file the tree no longer has. *)
Definition with_old : Txn :=
  mkTxn (<["old.txt" := mkIndexEntry "0beec7b5ea3f0fdbc95d0dd47f3c5bc275da8a33" 1600000000 3]>
           staged_index) [].

Definition after_old : Txn := Eval vm_compute in (AddAll_fn with_old).2.

(** A legacy callback that drops one path and adds another. *)
Definition legacy_edit (proxy : gmap string string) (out : list Event)
    : option error * gmap string string * list Event :=
  (None, <["new.txt" := "h9"]> (delete "old.txt" proxy), out).

Definition before_edit : Txn :=
  mkTxn (<["old.txt" := mkIndexEntry "h1" 11 22]>
           (<["keep.txt" := mkIndexEntry "h2" 33 44]> ∅)) [].

Definition edited_proxy : gmap string string :=
  <["new.txt" := "h9"]> (<["keep.txt" := "h2"]> ∅).

(** An index file as the first versions wrote it: bare hashes. *)
Definition legacy : string := json_text "{'a.txt': 'h1', 'src/main.go': 'h2'}".

Definition legacy_rawMap : gmap string string :=
  <["a.txt" := json_text "'h1'"]> (<["src/main.go" := json_text "'h2'"]> ∅).

Definition legacy_hashes : gmap string string :=
  <["a.txt" := "h1"]> (<["src/main.go" := "h2"]> ∅).

(** The bytes [WriteIndex] writes for those hashes. *)
Definition rewritten : string :=
  Eval vm_compute in
    match MarshalIndent ((λ hash, mkIndexEntry hash 0 0) <$> legacy_hashes) with
    | inr data => data
    | inl _ => EmptyString
    end.

(** A tree with a name that cannot be examined. *)
Definition torn_tree : fsnode :=
  FsDir 4096 1700000100 None
    [(".kitcat", FsDir 4096 1700000090 None [("index", FsFile 120 1700000090)]);
     ("a.txt", FsFile 5 1700000000);
     ("gone", FsErr "lstat /repo/gone: input/output error")].

(** A repository at [/repo] with that tree, asked as well about the file
    its ignore rules name. *)
Definition torn_world : World := {|
  Stat_IsNotExist := λ path,
    negb (bool_decide (path ∈ [".kitcat"; "/repo"; "/repo/build.log"]));
  fs := λ path,
    if decide (path = "/repo") then torn_tree
    else if decide (path = "/repo/build.log") then FsFile 9 1700000050
    else FsErr ("lstat " +:+ path +:+ ": no such file or directory");
  MkdirAll_err := None;
  lock_err := None;
  SafeWriteFile_err := None
|}.

(** A legacy callback that only reads. *)
Definition legacy_keep (proxy : gmap string string) (out : list Event)
    : option error * gmap string string * list Event :=
  (None, proxy, out).






End Sample.

(** * Properties *)

(** ** Enumerating a map *)

Section RangeFacts.
Context `{GoLib}.
Hypothesis Hrange : range_enumerates.

Lemma elem_of_range {V} (m : gmap string V) k v :
  (k, v) ∈ range m ↔ m !! k = Some v.
Proof. rewrite (Hrange V m). apply elem_of_map_to_list. Qed.

Lemma NoDup_range_keys {V} (m : gmap string V) : NoDup (range m).*1.
Proof. rewrite (Hrange V m). apply NoDup_fst_map_to_list. Qed.

Lemma elem_of_range_keys {V} (m : gmap string V) k :
  k ∈ (range m).*1 ↔ is_Some (m !! k).
Proof.
  rewrite list_elem_of_fmap. split.
  - intros [[k' v] [-> Hin]]. apply elem_of_range in Hin. eauto.
  - intros [v Hv]. exists (k, v). split; [done | by apply elem_of_range].
Qed.

End RangeFacts.

(** ** Loops over key/value lists *)

Section LoopFacts.
Context {A B : Type}.

(** [for k, v := range m { acc[k] = f(v) }] over distinct keys. *)
Lemma foldl_insert_lookup (f : A → B) (kvs : list (string * A))
    (acc : gmap string B) k :
  NoDup kvs.*1 →
  (∀ v, (k, v) ∈ kvs →
     foldl (λ acc kv, <[kv.1 := f kv.2]> acc) acc kvs !! k = Some (f v))
  ∧ (k ∉ kvs.*1 →
     foldl (λ acc kv, <[kv.1 := f kv.2]> acc) acc kvs !! k = acc !! k).
Proof.
  revert acc. induction kvs as [|[k0 v0] kvs IH]; intros acc Hnd.
  - split; [intros v Hv; by apply elem_of_nil in Hv | done].
  - apply NoDup_cons in Hnd as [Hk0 Hnd]. cbn [foldl fst snd].
    destruct (IH (<[k0 := f v0]> acc) Hnd) as [IH1 IH2]. split.
    + intros v Hv. apply elem_of_cons in Hv as [Heq | Hv].
      * injection Heq as -> ->. rewrite IH2 by done. apply lookup_insert_eq.
      * by apply IH1.
    + intros Hk. rewrite fmap_cons in Hk. apply not_elem_of_cons in Hk as [Hne Hk].
      rewrite IH2 by done. by apply lookup_insert_ne.
Qed.

End LoopFacts.

Lemma delete_all_lookup {V} (toDelete : list string) (m : gmap string V) k :
  delete_all toDelete m !! k = if decide (k ∈ toDelete) then None else m !! k.
Proof.
  unfold delete_all. revert m. induction toDelete as [|p toDelete IH]; intros m.
  - cbn. case_decide as Hin; [by apply elem_of_nil in Hin | done].
  - cbn [foldl]. rewrite IH. destruct (decide (k = p)) as [->|Hne].
    + rewrite lookup_delete_eq.
      destruct (decide (p ∈ toDelete)), (decide (p ∈ p :: toDelete)) as [|Hn];
        try done.
      all: exfalso; apply Hn; left.
    + rewrite lookup_delete_ne by done.
      destruct (decide (k ∈ toDelete)) as [Hin|Hin],
               (decide (k ∈ p :: toDelete)) as [Hin'|Hin']; try done.
      * exfalso. apply Hin'. by right.
      * apply elem_of_cons in Hin' as [? | ?]; done.
Qed.

Lemma elem_of_collect_missing (proxy : gmap string string)
    (kvs : list (string * IndexEntry)) p :
  p ∈ collect_missing proxy kvs ↔ p ∈ kvs.*1 ∧ proxy !! p = None.
Proof.
  unfold collect_missing.
  enough (∀ acc,
    p ∈ foldl (λ toDelete kv,
                 match proxy !! kv.1 with
                 | Some _ => toDelete
                 | None => toDelete ++ [kv.1]
                 end) acc kvs
    ↔ p ∈ acc ∨ (p ∈ kvs.*1 ∧ proxy !! p = None)) as Hgen.
  { rewrite Hgen. split; [intros [Hnil | ?]; [by apply elem_of_nil in Hnil | done] | by right]. }
  induction kvs as [|[k0 v0] kvs IH]; intros acc; cbn [foldl fst].
  - split; [by left | intros [? | [Hnil _]]; [done | by apply elem_of_nil in Hnil]].
  - rewrite IH, fmap_cons. cbn [fst]. destruct (proxy !! k0) eqn:Hk0.
    + split; [intros [? | [? ?]]; [by left | right; split; [by right | done]] |].
      intros [? | [Hin Hp]]; [by left |].
      apply elem_of_cons in Hin as [-> | Hin]; [congruence | by right].
    + rewrite elem_of_app, list_elem_of_singleton. split.
      * intros [[? | ->] | [? ?]]; [by left | right; split; [by left | done] |
                                    right; split; [by right | done]].
      * intros [? | [Hin Hp]]; [by left; left |].
        apply elem_of_cons in Hin as [-> | Hin]; [by left; right | by right].
Qed.

Lemma apply_updates_lookup (kvs : list (string * string))
    (realIndex : gmap string IndexEntry) k :
  NoDup kvs.*1 →
  (∀ newHash, (k, newHash) ∈ kvs →
     apply_updates kvs realIndex !! k = Some (updated (realIndex !! k) newHash))
  ∧ (k ∉ kvs.*1 → apply_updates kvs realIndex !! k = realIndex !! k).
Proof.
  unfold apply_updates. revert realIndex.
  induction kvs as [|[k0 h0] kvs IH]; intros realIndex Hnd.
  - split; [intros v Hv; by apply elem_of_nil in Hv | done].
  - apply NoDup_cons in Hnd as [Hk0 Hnd]. cbn [foldl].
    set (step := match realIndex !! k0 with
                 | Some existing =>
                   if decide (Hash existing = h0) then realIndex
                   else <[k0 := mkIndexEntry h0 0 0]> realIndex
                 | None => <[k0 := mkIndexEntry h0 0 0]> realIndex
                 end).
    assert (Hstep0 : step !! k0 = Some (updated (realIndex !! k0) h0)).
    { subst step. unfold updated. destruct (realIndex !! k0) as [e|] eqn:He.
      - case_decide; [done | apply lookup_insert_eq].
      - apply lookup_insert_eq. }
    assert (Hstep : ∀ j, j ≠ k0 → step !! j = realIndex !! j).
    { intros j Hj. subst step. destruct (realIndex !! k0) as [e|].
      - case_decide; [done | by apply lookup_insert_ne].
      - by apply lookup_insert_ne. }
    destruct (IH step Hnd) as [IH1 IH2]. split.
    + intros h Hin. apply elem_of_cons in Hin as [Heq | Hin].
      * injection Heq as -> ->. by rewrite IH2.
      * rewrite (IH1 h Hin). rewrite Hstep; [done |].
        intros ->. apply Hk0. apply list_elem_of_fmap. by exists (k0, h).
    + intros Hk. rewrite fmap_cons in Hk. apply not_elem_of_cons in Hk as [Hne Hk].
      rewrite IH2 by done. by apply Hstep.
Qed.

(** ** The transaction and the legacy adapter *)

Section StorageFacts.
Context `{GoLib} `{World}.

Lemma hash_view_fmap (index : gmap string IndexEntry) :
  range_enumerates → hash_view index = Hash <$> index.
Proof.
  intros Hrange. apply map_eq. intros k. unfold hash_view.
  destruct (foldl_insert_lookup Hash (range index) ∅ k) as [Hin Hout].
  { by apply NoDup_range_keys. }
  rewrite lookup_fmap. destruct (index !! k) as [e|] eqn:He; cbn.
  - apply Hin. by apply elem_of_range.
  - rewrite Hout; [apply lookup_empty |].
    rewrite elem_of_range_keys by done. rewrite He. by intros [? ?].
Qed.

(** The rich index after a successful legacy callback, key by key. *)
Lemma UpdateIndex_fn_lookup fn (t : Txn) (proxy : gmap string string) out' :
  range_enumerates →
  fn (hash_view (tx_index t)) (tx_out t) = (None, proxy, out') →
  ∃ realIndex : gmap string IndexEntry,
    UpdateIndex_fn fn t = (None, mkTxn realIndex out')
    ∧ ∀ path, realIndex !! path = updated (tx_index t !! path) <$> proxy !! path.
Proof.
  intros Hrange Hfn. unfold UpdateIndex_fn. rewrite Hfn.
  eexists. split; [reflexivity |]. intros path.
  set (toDelete := collect_missing proxy (range (tx_index t))).
  destruct (apply_updates_lookup (range proxy) (delete_all toDelete (tx_index t)) path)
    as [Hin Hout]; [by apply NoDup_range_keys |].
  assert (Hdel : proxy !! path = None → delete_all toDelete (tx_index t) !! path = None).
  { intros Hp. rewrite delete_all_lookup. case_decide as Htd; [done |].
    destruct (tx_index t !! path) as [e|] eqn:He; [| done].
    exfalso. apply Htd. apply elem_of_collect_missing. split; [| done].
    apply elem_of_range_keys; [done | by rewrite He]. }
  destruct (proxy !! path) as [newHash|] eqn:Hp; cbn.
  - rewrite (Hin newHash) by (by apply elem_of_range).
    rewrite delete_all_lookup. rewrite decide_False; [done |].
    intros Htd. apply elem_of_collect_missing in Htd as [_ Hnone]. congruence.
  - rewrite Hout; [by apply Hdel |].
    rewrite elem_of_range_keys by done. rewrite Hp. by intros [? ?].
Qed.

(** C8.  In [UpdateIndex], once the legacy callback has returned without an
    error: a key the rich index had before and the callback's map no longer
    has is gone from the rich index; a key whose hash is new (no entry
    before) or changed (another hash before) holds a fresh entry with that
    hash and with [ModTime] and [Size] zero. *)
Theorem UpdateIndex_reconciles
    fn (t : Txn) (proxy : gmap string string) out' :
  range_enumerates →
  fn (hash_view (tx_index t)) (tx_out t) = (None, proxy, out') →
  ∃ realIndex : gmap string IndexEntry,
    UpdateIndex_fn fn t = (None, mkTxn realIndex out')
    ∧ (∀ path, is_Some (tx_index t !! path) → proxy !! path = None →
         realIndex !! path = None)
    ∧ (∀ path newHash, proxy !! path = Some newHash →
         Hash <$> tx_index t !! path ≠ Some newHash →
         realIndex !! path = Some (mkIndexEntry newHash 0 0)).
Proof.
  intros Hrange Hfn.
  destruct (UpdateIndex_fn_lookup fn t proxy out' Hrange Hfn) as (realIndex & Hrun & Hlook).
  exists realIndex. split; [done |]. split.
  - intros path _ Hp. by rewrite Hlook, Hp.
  - intros path newHash Hp Hnew. rewrite Hlook, Hp. cbn. f_equal.
    unfold updated. destruct (tx_index t !! path) as [e|]; [| done].
    case_decide as Heq; [| done]. exfalso. apply Hnew. cbn. by rewrite Heq.
Qed.

(** C10.  In [UpdateIndex], an entry whose key the callback keeps with the
    hash it had stays as it was, [ModTime] and [Size] included; and every
    entry of the resulting index is either such an entry or a fresh one
    ([ModTime] and [Size] zero) for a hash that is new or changed. *)
Theorem UpdateIndex_keeps_metadata
    fn (t : Txn) (proxy : gmap string string) out' :
  range_enumerates →
  fn (hash_view (tx_index t)) (tx_out t) = (None, proxy, out') →
  ∃ realIndex : gmap string IndexEntry,
    UpdateIndex_fn fn t = (None, mkTxn realIndex out')
    ∧ (∀ path entry, tx_index t !! path = Some entry →
         proxy !! path = Some (Hash entry) →
         realIndex !! path = Some entry)
    ∧ (∀ path entry, realIndex !! path = Some entry →
         (tx_index t !! path = Some entry ∧ proxy !! path = Some (Hash entry))
         ∨ (ModTime entry = 0%Z ∧ Size entry = 0%Z
            ∧ proxy !! path = Some (Hash entry)
            ∧ Hash <$> tx_index t !! path ≠ Some (Hash entry))).
Proof.
  intros Hrange Hfn.
  destruct (UpdateIndex_fn_lookup fn t proxy out' Hrange Hfn) as (realIndex & Hrun & Hlook).
  exists realIndex. split; [done |]. split.
  - intros path entry He Hp. rewrite Hlook, Hp, He. cbn.
    by rewrite decide_True.
  - intros path entry Hre. rewrite Hlook in Hre.
    destruct (proxy !! path) as [newHash|]; [| done].
    cbn in Hre. injection Hre as Hre. unfold updated in Hre.
    destruct (tx_index t !! path) as [e|] eqn:He.
    + case_decide as Heq.
      * left. subst e. by rewrite Heq.
      * right. subst entry. cbn. split_and!; [done .. |]. congruence.
    + right. subst entry. cbn. by split_and!.
Qed.

(** C1.  When the callback handed to [UpdateIndexWithMeta] returns an error,
    nothing is written: the index file is the one found, and the caller gets
    that very error. *)
Theorem UpdateIndexWithMeta_error_no_write
    (fn : Txn → option error * Txn) (d : IndexFile) (out out1 : list Event)
    (index : gmap string IndexEntry) (err : error) (t' : Txn) :
  MkdirAll_err = None →
  lock_err = None →
  LoadIndexWithMeta d out = (inr index, out1) →
  fn (mkTxn index out1) = (Some err, t') →
  UpdateIndexWithMeta fn d out = (Some err, d, tx_out t').
Proof.
  intros Hmk Hlock Hload Hfn. unfold UpdateIndexWithMeta.
  by rewrite Hmk, Hlock, Hload, Hfn.
Qed.

(** Short of the final write, no path through [UpdateIndexWithMeta] touches
    the file. *)
Lemma UpdateIndexWithMeta_file fn (d : IndexFile) out :
  (UpdateIndexWithMeta fn d out).1.2 = d
  ∨ ∃ index out1 t data,
      LoadIndexWithMeta d out = (inr index, out1)
      ∧ fn (mkTxn index out1) = (None, t)
      ∧ json_MarshalIndent (tx_index t) = inr data
      ∧ UpdateIndexWithMeta fn d out = (None, FileBytes data, tx_out t).
Proof.
  unfold UpdateIndexWithMeta.
  destruct MkdirAll_err; [by left |]. destruct lock_err; [by left |].
  destruct (LoadIndexWithMeta d out) as [[err|index] out1]; [by left |].
  destruct (fn (mkTxn index out1)) as [[err|] t] eqn:Hfn; [by left |].
  destruct (json_MarshalIndent (tx_index t)) as [err|data] eqn:Hdata; [by left |].
  unfold SafeWriteFile. destruct SafeWriteFile_err; [by left |].
  right. by exists index, out1, t, data.
Qed.

End StorageFacts.

(** ** Loading the index file *)

Section LoadFacts.
Context `{GoLib}.

Lemma load_entries_cons path rawValue rest index out :
  load_entries ((path, rawValue) :: rest) index out =
  match load_one path rawValue with
  | Stored entry => load_entries rest (<[path := entry]> index) out
  | Skipped false => load_entries rest index out
  | Skipped true => load_entries rest index (out ++ [unknown_format_warning path])
  | Broken err => (inl err, out)
  end.
Proof.
  cbn [load_entries]. unfold load_one, first_significant_byte, quote, brace.
  destruct (bytes_TrimSpace rawValue) as [|c s]; [done |].
  destruct (Ascii.eqb c "034").
  { by destruct (json_Unmarshal_string (String c s)). }
  destruct (Ascii.eqb c "{"); [| done].
  by destruct (json_Unmarshal_IndexEntry (String c s)).
Qed.

Lemma load_one_Broken path rawValue err :
  load_one path rawValue = Broken err → IndexCorruption err ∧ ¬ decodes rawValue.
Proof.
  unfold load_one, decodes. destruct (first_significant_byte rawValue) as [c|]; [| done].
  destruct (Ascii.eqb c quote) eqn:Hq.
  { apply Ascii.eqb_eq in Hq as ->.
    destruct (json_Unmarshal_string _) as [e|h] eqn:Hdec; [| done].
    intros [= <-]. split; [constructor |].
    intros [Hl _]. destruct (Hl eq_refl) as [h Hh]. congruence. }
  destruct (Ascii.eqb c brace) eqn:Hb; [| done].
  apply Ascii.eqb_eq in Hb as ->.
  destruct (json_Unmarshal_IndexEntry _) as [e|entry] eqn:Hdec; [| done].
  intros [= <-]. split; [constructor |].
  intros [_ Hr]. destruct (Hr eq_refl) as [h Hh]. congruence.
Qed.

Lemma load_one_quote path rawValue hash :
  first_significant_byte rawValue = Some quote →
  json_Unmarshal_string (bytes_TrimSpace rawValue) = inr hash →
  load_one path rawValue = Stored (mkIndexEntry hash 0 0).
Proof. unfold load_one. by intros -> ->. Qed.

Lemma load_one_brace path rawValue entry :
  first_significant_byte rawValue = Some brace →
  json_Unmarshal_IndexEntry (bytes_TrimSpace rawValue) = inr entry →
  load_one path rawValue = Stored entry.
Proof. unfold load_one. by intros -> ->. Qed.

Lemma load_one_other path rawValue c :
  first_significant_byte rawValue = Some c → c ≠ quote → c ≠ brace →
  load_one path rawValue = Skipped true.
Proof.
  unfold load_one. intros -> Hq Hb.
  apply Ascii.eqb_neq in Hq as ->. by apply Ascii.eqb_neq in Hb as ->.
Qed.

(** A value that does not decode stops the loop with an error, wherever it
    comes in the enumeration. *)
Lemma load_entries_Broken kvs index out path rawValue :
  (path, rawValue) ∈ kvs → ¬ decodes rawValue →
  ∃ err out', load_entries kvs index out = (inl err, out') ∧ IndexCorruption err.
Proof.
  revert index out. induction kvs as [|[p r] kvs IH]; intros index out Hin Hbad.
  { by apply elem_of_nil in Hin. }
  rewrite load_entries_cons.
  destruct (load_one p r) as [entry|warned|err] eqn:Hone.
  - apply elem_of_cons in Hin as [[= -> ->] | Hin]; [| by apply IH].
    exfalso. apply Hbad. unfold load_one, decodes in *.
    destruct (first_significant_byte r) as [c|]; [| done].
    destruct (Ascii.eqb c quote) eqn:Hq.
    { apply Ascii.eqb_eq in Hq as ->. split; [| done].
      destruct (json_Unmarshal_string _); [done | eauto]. }
    destruct (Ascii.eqb c brace) eqn:Hb; [| done].
    apply Ascii.eqb_eq in Hb as ->. split; [done |].
    destruct (json_Unmarshal_IndexEntry _); [done | eauto].
  - assert ((path, rawValue) ∈ kvs) as Hin'.
    { apply elem_of_cons in Hin as [[= -> ->] | Hin]; [| done].
      exfalso. apply Hbad. unfold load_one, decodes in *.
      destruct (first_significant_byte r) as [c|]; [| done].
      destruct (Ascii.eqb c quote) eqn:Hq.
      { by destruct (json_Unmarshal_string _). }
      destruct (Ascii.eqb c brace) eqn:Hb.
      { by destruct (json_Unmarshal_IndexEntry _). }
      apply Ascii.eqb_neq in Hq, Hb. split; congruence. }
    destruct warned; by apply IH.
  - exists err, out. split; [done |]. by apply load_one_Broken in Hone as [? _].
Qed.

(** When every value decodes the loop runs to its end; the index then holds
    what each turn stored, and the output what each turn printed. *)
Lemma load_entries_ok kvs index out :
  NoDup kvs.*1 →
  (∀ path rawValue, (path, rawValue) ∈ kvs → decodes rawValue) →
  ∃ index' out',
    load_entries kvs index out = (inr index', out')
    ∧ (∀ path rawValue, (path, rawValue) ∈ kvs →
         match load_one path rawValue with
         | Stored entry => index' !! path = Some entry
         | Skipped warned =>
           index' !! path = index !! path
           ∧ (warned = true → unknown_format_warning path ∈ out')
         | Broken _ => False
         end)
    ∧ (∀ path, path ∉ kvs.*1 → index' !! path = index !! path)
    ∧ (∀ ev, ev ∈ out → ev ∈ out').
Proof.
  revert index out. induction kvs as [|[p r] kvs IH]; intros index out Hnd Hdec.
  { exists index, out. split_and!; [done | | done..].
    intros ? ? Hin. by apply elem_of_nil in Hin. }
  rewrite fmap_cons in Hnd. cbn in Hnd. apply NoDup_cons in Hnd as [Hp Hnd].
  assert (Hdec' : ∀ path rawValue, (path, rawValue) ∈ kvs → decodes rawValue).
  { intros ? ? ?. eapply Hdec. by right. }
  assert (Hfresh : ∀ rawValue, (p, rawValue) ∈ kvs → False).
  { intros rawValue Hin. apply Hp. apply list_elem_of_fmap. by exists (p, rawValue). }
  rewrite load_entries_cons.
  destruct (load_one p r) as [entry|warned|err] eqn:Hone.
  - destruct (IH (<[p := entry]> index) out Hnd Hdec')
      as (index' & out' & Hrun & Hin & Hout & Hmono).
    exists index', out'. split_and!; [done | | | done].
    + intros path rawValue Hel. apply elem_of_cons in Hel as [[= -> ->] | Hel].
      * rewrite Hone. rewrite Hout by done. apply lookup_insert_eq.
      * specialize (Hin _ _ Hel). destruct (load_one path rawValue); [done | | done].
        rewrite lookup_insert_ne in Hin; [done |]. intros ->. by eapply Hfresh.
    + intros path Hnot. rewrite fmap_cons in Hnot. cbn in Hnot.
      apply not_elem_of_cons in Hnot as [Hne Hnot].
      rewrite Hout by done. by apply lookup_insert_ne.
  - set (out1 := if warned then out ++ [unknown_format_warning p] else out).
    destruct (IH index out1 Hnd Hdec') as (index' & out' & Hrun & Hin & Hout & Hmono).
    exists index', out'. split_and!.
    + subst out1. by destruct warned.
    + intros path rawValue Hel. apply elem_of_cons in Hel as [[= -> ->] | Hel].
      * rewrite Hone. split; [by apply Hout |].
        intros ->. apply Hmono. subst out1. apply elem_of_app. right. by left.
      * by apply Hin.
    + intros path Hnot. rewrite fmap_cons in Hnot. cbn in Hnot.
      apply not_elem_of_cons in Hnot as [Hne Hnot]. by apply Hout.
    + intros ev Hev. apply Hmono. subst out1. destruct warned; [| done].
      apply elem_of_app. by left.
  - exfalso. apply load_one_Broken in Hone as [_ Hbad]. apply Hbad.
    eapply Hdec. by left.
Qed.

Lemma decodes_dec rawValue : decodes rawValue ∨ ¬ decodes rawValue.
Proof.
  unfold decodes. destruct (first_significant_byte rawValue) as [c|].
  2: { left. by split. }
  destruct (decide (c = quote)) as [-> | Hq].
  { destruct (json_Unmarshal_string _) as [e|h].
    - right. intros [Hl _]. by destruct (Hl eq_refl).
    - left. split; [eauto | done]. }
  destruct (decide (c = brace)) as [-> | Hb].
  { destruct (json_Unmarshal_IndexEntry _) as [e|h].
    - right. intros [_ Hr]. by destruct (Hr eq_refl).
    - left. split; [done | eauto]. }
  left. split; congruence.
Qed.

Lemma LoadIndexWithMeta_content content rawMap out :
  content ≠ EmptyString →
  json_Unmarshal_rawMap content = inr rawMap →
  LoadIndexWithMeta (FileBytes content) out = load_entries (range rawMap) ∅ out.
Proof. intros Hne Hraw. cbn. rewrite Hraw. by destruct content. Qed.

(** A load of a well-formed document whose values all decode. *)
Lemma LoadIndexWithMeta_ok content rawMap out :
  range_enumerates →
  content ≠ EmptyString →
  json_Unmarshal_rawMap content = inr rawMap →
  (∀ path rawValue, rawMap !! path = Some rawValue → decodes rawValue) →
  ∃ index out',
    LoadIndexWithMeta (FileBytes content) out = (inr index, out')
    ∧ (∀ path rawValue, rawMap !! path = Some rawValue →
         (first_significant_byte rawValue = Some quote →
            ∃ hash, json_Unmarshal_string (bytes_TrimSpace rawValue) = inr hash
                    ∧ index !! path = Some (mkIndexEntry hash 0 0))
         ∧ (first_significant_byte rawValue = Some brace →
            ∃ entry, json_Unmarshal_IndexEntry (bytes_TrimSpace rawValue) = inr entry
                     ∧ index !! path = Some entry)
         ∧ (∀ c, first_significant_byte rawValue = Some c →
              c ≠ quote → c ≠ brace →
              index !! path = None ∧ unknown_format_warning path ∈ out'))
    ∧ dom index ⊆ dom rawMap.
Proof.
  intros Hrange Hne Hraw Hdec.
  rewrite (LoadIndexWithMeta_content content rawMap out Hne Hraw).
  destruct (load_entries_ok (range rawMap) ∅ out) as (index & out' & Hrun & Hin & Hout & _).
  { by apply NoDup_range_keys. }
  { intros path rawValue Hel. apply (Hdec path). by apply elem_of_range. }
  exists index, out'. split; [done |]. split.
  - intros path rawValue Hlook.
    assert (Hel : (path, rawValue) ∈ range rawMap) by (by apply elem_of_range).
    specialize (Hin _ _ Hel). destruct (Hdec _ _ Hlook) as [Hq Hb]. split_and!.
    + intros Hfirst. destruct (Hq Hfirst) as [hash Hhash]. exists hash. split; [done |].
      by rewrite (load_one_quote path rawValue hash Hfirst Hhash) in Hin.
    + intros Hfirst. destruct (Hb Hfirst) as [entry Hentry]. exists entry. split; [done |].
      by rewrite (load_one_brace path rawValue entry Hfirst Hentry) in Hin.
    + intros c Hfirst Hnq Hnb.
      rewrite (load_one_other path rawValue c Hfirst Hnq Hnb) in Hin.
      destruct Hin as [Hsame Hwarn]. split; [| by apply Hwarn].
      rewrite Hsame. apply lookup_empty.
  - intros path Hdom. apply elem_of_dom. apply elem_of_dom in Hdom.
    apply (elem_of_range_keys Hrange). destruct (decide (path ∈ (range rawMap).*1)); [done |].
    rewrite Hout in Hdom by done. rewrite lookup_empty in Hdom. by destruct Hdom.
Qed.

(** C3.  [LoadIndexWithMeta] decides by the first significant byte of each
    value of the file: a value that starts with a quote is decoded as a
    string and becomes an entry with that hash and [ModTime] and [Size] zero;
    a value that starts with an opening brace is decoded as an [IndexEntry]
    and stored as decoded.  The load succeeds when each value decodes. *)
Theorem LoadIndexWithMeta_dispatch content rawMap out :
  range_enumerates →
  content ≠ EmptyString →
  json_Unmarshal_rawMap content = inr rawMap →
  ((∀ path rawValue, rawMap !! path = Some rawValue → decodes rawValue) →
   ∃ index out', LoadIndexWithMeta (FileBytes content) out = (inr index, out'))
  ∧ ∀ index out',
      LoadIndexWithMeta (FileBytes content) out = (inr index, out') →
      ∀ path rawValue, rawMap !! path = Some rawValue →
        (first_significant_byte rawValue = Some quote →
           ∃ hash, json_Unmarshal_string (bytes_TrimSpace rawValue) = inr hash
                   ∧ index !! path = Some (mkIndexEntry hash 0 0)
                   ∧ Hash <$> index !! path = Some hash)
        ∧ (first_significant_byte rawValue = Some brace →
           ∃ entry, json_Unmarshal_IndexEntry (bytes_TrimSpace rawValue) = inr entry
                    ∧ index !! path = Some entry).
Proof.
  intros Hrange Hne Hraw. split.
  { intros Hdec.
    destruct (LoadIndexWithMeta_ok content rawMap out Hrange Hne Hraw Hdec)
      as (index & out' & Hrun & _). eauto. }
  intros index out' Hrun.
  assert (Hdec : ∀ path rawValue, rawMap !! path = Some rawValue → decodes rawValue).
  { intros path rawValue Hlook. destruct (decodes_dec rawValue) as [|Hbad]; [done |].
    exfalso.
    destruct (load_entries_Broken (range rawMap) ∅ out path rawValue)
      as (err & out1 & Hfail & _); [by apply elem_of_range | done |].
    rewrite (LoadIndexWithMeta_content content rawMap out Hne Hraw) in Hrun. congruence. }
  destruct (LoadIndexWithMeta_ok content rawMap out Hrange Hne Hraw Hdec)
    as (index1 & out1 & Hrun1 & Hin & _).
  assert (index1 = index) as -> by congruence.
  intros path rawValue Hlook. destruct (Hin _ _ Hlook) as (Hq & Hb & _). split.
  - intros Hfirst. destruct (Hq Hfirst) as (hash & Hhash & Hidx).
    exists hash. split_and!; [done.. |]. by rewrite Hidx.
  - done.
Qed.

(** C4.  A value whose first significant byte is neither a quote nor an
    opening brace is left out with a warning while the other values load; a
    document that [json.Unmarshal] rejects, or one value that starts like a
    string or an object and does not decode as one, makes the whole load
    return an error and no index. *)
Theorem LoadIndexWithMeta_tolerance content out :
  range_enumerates →
  content ≠ EmptyString →
  (∀ rawMap,
     json_Unmarshal_rawMap content = inr rawMap →
     (∀ path rawValue, rawMap !! path = Some rawValue → decodes rawValue) →
     ∃ index out',
       LoadIndexWithMeta (FileBytes content) out = (inr index, out')
       ∧ ∀ path rawValue, rawMap !! path = Some rawValue →
           (∀ c, first_significant_byte rawValue = Some c →
              c ≠ quote → c ≠ brace →
              index !! path = None ∧ unknown_format_warning path ∈ out')
           ∧ (first_significant_byte rawValue = Some quote →
              ∃ hash, json_Unmarshal_string (bytes_TrimSpace rawValue) = inr hash
                      ∧ index !! path = Some (mkIndexEntry hash 0 0))
           ∧ (first_significant_byte rawValue = Some brace →
              ∃ entry, json_Unmarshal_IndexEntry (bytes_TrimSpace rawValue) = inr entry
                       ∧ index !! path = Some entry))
  ∧ (∀ err,
       json_Unmarshal_rawMap content = inl err →
       LoadIndexWithMeta (FileBytes content) out
       = (inl (Errorf_w "index file corruption: " err), out)
       ∧ IndexCorruption (Errorf_w "index file corruption: " err))
  ∧ (∀ rawMap path rawValue,
       json_Unmarshal_rawMap content = inr rawMap →
       rawMap !! path = Some rawValue →
       (first_significant_byte rawValue = Some quote
        ∧ (∃ err, json_Unmarshal_string (bytes_TrimSpace rawValue) = inl err))
       ∨ (first_significant_byte rawValue = Some brace
          ∧ (∃ err, json_Unmarshal_IndexEntry (bytes_TrimSpace rawValue) = inl err)) →
       ∃ err out',
         LoadIndexWithMeta (FileBytes content) out = (inl err, out')
         ∧ IndexCorruption err).
Proof.
  intros Hrange Hne. split_and!.
  - intros rawMap Hraw Hdec.
    destruct (LoadIndexWithMeta_ok content rawMap out Hrange Hne Hraw Hdec)
      as (index & out' & Hrun & Hin & _).
    exists index, out'. split; [done |].
    intros path rawValue Hlook. destruct (Hin _ _ Hlook) as (Hq & Hb & Ho). done.
  - intros err Hraw. split; [| constructor].
    cbn. rewrite Hraw. by destruct content.
  - intros rawMap path rawValue Hraw Hlook Hbad.
    rewrite (LoadIndexWithMeta_content content rawMap out Hne Hraw).
    apply (load_entries_Broken (range rawMap) ∅ out path rawValue).
    { by apply elem_of_range. }
    intros [Hq Hb]. destruct Hbad as [[Hfirst [err Herr]] | [Hfirst [err Herr]]].
    + destruct (Hq Hfirst) as [hash Hhash]. congruence.
    + destruct (Hb Hfirst) as [entry Hentry]. congruence.
Qed.

End LoadFacts.

(** ** The walk *)

(** Induction over a tree, with the hypothesis for each child of a
    directory. *)
Lemma fsnode_tree_ind (P : fsnode → Prop) :
  (∀ size mtime, P (FsFile size mtime)) →
  (∀ size mtime readErr children,
     Forall (λ nc, P nc.2) children → P (FsDir size mtime readErr children)) →
  (∀ lstatErr, P (FsErr lstatErr)) →
  ∀ n, P n.
Proof.
  intros Hfile Hdir Herr.
  fix IH 1. intros [size mtime | size mtime readErr children | lstatErr].
  - apply Hfile.
  - apply Hdir. induction children as [|[name child] children IHc].
    + constructor.
    + constructor; [apply IH | apply IHc].
  - apply Herr.
Qed.

Section WalkFacts.
Context `{GoLib} `{World} {S : Type}.
Variable walkFn : string → WalkArg → S → option error * S.

(** [walk] on a directory that could be listed, with the loop named. *)
Lemma walk_FsDir path size mtime children s :
  walk walkFn path (FsDir size mtime None children) s =
  match walkFn path (Entry (mkFileInfo size mtime true)) s with
  | (Some err1, s) => (Some err1, s)
  | (None, s) => walk_names walkFn path children s
  end.
Proof.
  cbn [walk walk_arg]. destruct (walkFn _ _ s) as [[err1|] s1]; [done |].
  revert s1. induction children as [|[name child] rest IH]; intros s1; [done |].
  cbn [walk_names]. destruct (walk walkFn _ child s1) as [[err|] s2].
  - destruct (is_SkipDir err && drops_SkipDir child); [apply IH | done].
  - apply IH.
Qed.

End WalkFacts.

(** *** The calls a walk makes *)

Section WalkLog.
Context `{GoLib} `{World} {S : Type}.
Variable walkFn : string → WalkArg → S → option error * S.

Lemma chain_app s l1 s1 l2 s2 :
  chain walkFn s l1 s1 → chain walkFn s1 l2 s2 → chain walkFn s (l1 ++ l2) s2.
Proof.
  revert s. induction l1 as [|[v pre] l1 IH]; intros s; cbn.
  - by intros ->.
  - intros [-> Hc] Hc2. split; [done | by apply IH].
Qed.

Lemma chain_foldl s l s' :
  chain walkFn s l s' → s' = foldl (λ s v, step walkFn v s) s l.*1.
Proof.
  revert s. induction l as [|[v pre] l IH]; intros s; cbn; [done |].
  intros [-> Hc]. by apply IH.
Qed.

Lemma outcome_app_quiet r l1 l2 :
  quiet walkFn l1 → outcome walkFn r l2 → outcome walkFn r (l1 ++ l2).
Proof.
  intros Hq. unfold outcome. destruct r as [e|]; [| by apply Forall_app_2].
  destruct (is_SkipDir e); [by apply Forall_app_2 |].
  intros (l0 & v & pre & -> & Hq0 & Hret). exists (l1 ++ l0), v, pre.
  split_and!; [by rewrite app_assoc | by apply Forall_app_2 | done].
Qed.

(** One call. *)
Lemma logged_call path arg s vs :
  ∃ r s', logged walkFn path arg (s, vs) = (r, (s', vs ++ [((path, arg), s)]))
          ∧ walkFn path arg s = (r, s')
          ∧ chain walkFn s [((path, arg), s)] s'
          ∧ outcome walkFn r [((path, arg), s)].
Proof.
  unfold logged. cbn [fst snd].
  destruct (walkFn path arg s) as [r s'] eqn:Hcall. exists r, s'.
  split_and!; [done | done | |].
  - cbn. unfold step. cbn. by rewrite Hcall.
  - unfold outcome. destruct r as [e|].
    + destruct (is_SkipDir e) eqn:Hskip.
      * constructor; [| constructor]. intros e'. unfold ret. cbn. rewrite Hcall.
        cbn. by intros [= <-].
      * exists [], (path, arg), s. split_and!; [done | constructor |].
        unfold ret. cbn. by rewrite Hcall.
    + constructor; [| constructor]. intros e'. unfold ret. cbn. by rewrite Hcall.
Qed.

Lemma walk_names_logged path children :
  Forall (λ nc, ∀ path, runs walkFn path nc.2) children →
  ∀ s vs, ∃ r s' l,
    walk_names (logged walkFn) path children (s, vs) = (r, (s', vs ++ l))
    ∧ walk_names walkFn path children s = (r, s')
    ∧ chain walkFn s l s'
    ∧ outcome walkFn r l
    ∧ from_tree l.
Proof.
  induction 1 as [|[name child] rest Hchild _ IH]; intros s vs.
  { exists None, s, []. rewrite app_nil_r. split_and!; [done.. | constructor | constructor]. }
  cbn [walk_names snd] in *.
  destruct (Hchild (filepath_Join path name) s vs)
    as (r1 & s1 & l1 & Hlog & Hrun & Hc1 & Ho1 & Ht1).
  rewrite Hlog, Hrun.
  destruct (IH s1 (vs ++ l1)) as (r2 & s2 & l2 & Hlog2 & Hrun2 & Hc2 & Ho2 & Ht2).
  assert (Hgo : quiet walkFn l1 →
    ∃ r s' l,
      walk_names (logged walkFn) path rest (s1, vs ++ l1) = (r, (s', vs ++ l))
      ∧ walk_names walkFn path rest s1 = (r, s') ∧ chain walkFn s l s' ∧ outcome walkFn r l
      ∧ from_tree l).
  { intros Hq. exists r2, s2, (l1 ++ l2). rewrite app_assoc.
    split_and!; [done | done | by eapply chain_app | by apply outcome_app_quiet |
                 by apply Forall_app_2]. }
  destruct r1 as [e|]; [| by apply Hgo].
  destruct (is_SkipDir e && drops_SkipDir child) eqn:Hdrop.
  - apply Hgo. apply andb_prop in Hdrop as [Hskip _].
    unfold outcome in Ho1. by rewrite Hskip in Ho1.
  - by exists (Some e), s1, l1.
Qed.

Lemma walk_logged n : ∀ path, runs walkFn path n.
Proof.
  assert (Hone : ∀ path m s vs,
    ∃ r s', logged walkFn path (walk_arg m) (s, vs)
            = (r, (s', vs ++ [((path, walk_arg m), s)]))
            ∧ walkFn path (walk_arg m) s = (r, s')
            ∧ chain walkFn s [((path, walk_arg m), s)] s'
            ∧ outcome walkFn r [((path, walk_arg m), s)]
            ∧ from_tree [((path, walk_arg m), s)]).
  { intros path m s vs.
    destruct (logged_call path (walk_arg m) s vs) as (r & s' & Hlog & Hrun & Hc & Ho).
    exists r, s'. split_and!; [done.. |]. constructor; [by exists m | constructor]. }
  induction n as [size mtime | size mtime readErr children IH | lstatErr]
    using fsnode_tree_ind; intros path s vs.
  - destruct (Hone path (FsFile size mtime) s vs) as (r & s' & Hlog & Hrun & Hc & Ho & Ht).
    eexists r, s', _. split_and!; [exact Hlog | exact Hrun | exact Hc | exact Ho | exact Ht].
  - destruct readErr as [msg|].
    { destruct (Hone path (FsDir size mtime (Some msg) children) s vs)
        as (r & s' & Hlog & Hrun & Hc & Ho & Ht).
      eexists r, s', _. split_and!; [exact Hlog | exact Hrun | exact Hc | exact Ho | exact Ht]. }
    rewrite !walk_FsDir.
    destruct (Hone path (FsDir size mtime None children) s vs)
      as (r & s1 & Hlog & Hrun & Hc & Ho & Ht).
    cbn [walk_arg] in *. rewrite Hlog, Hrun. destruct r as [e|].
    { eexists (Some e), s1, _.
      split_and!; [reflexivity | done | exact Hc | exact Ho | exact Ht]. }
    destruct (walk_names_logged path children IH s1
                (vs ++ [((path, Entry (mkFileInfo size mtime true)), s)]))
      as (r2 & s2 & l2 & Hlog2 & Hrun2 & Hc2 & Ho2 & Ht2).
    exists r2, s2, ([((path, Entry (mkFileInfo size mtime true)), s)] ++ l2).
    rewrite app_assoc. split_and!; [done | done | | |].
    + by eapply chain_app.
    + by apply outcome_app_quiet.
    + by apply Forall_app_2.
  - destruct (Hone path (FsErr lstatErr) s vs) as (r & s' & Hlog & Hrun & Hc & Ho & Ht).
    eexists r, s', _. split_and!; [exact Hlog | exact Hrun | exact Hc | exact Ho | exact Ht].
Qed.

(** [Walk] makes the calls of [Walk_log], each on the state the one before
    left; an error it returns is the error of the last call, and a call that
    returns an error other than [SkipDir] and [SkipAll] is the last. *)
Lemma Walk_spec root s :
  ∃ r s',
    Walk walkFn root s = (r, s')
    ∧ chain walkFn s (Walk_log walkFn root s) s'
    ∧ (∀ e, r = Some e →
         is_SkipDir e = false ∧ is_SkipAll e = false
         ∧ ∃ l0 v pre, Walk_log walkFn root s = l0 ++ [(v, pre)] ∧ ret walkFn v pre = Some e)
    ∧ (∀ i v pre e,
         Walk_log walkFn root s !! i = Some (v, pre) → ret walkFn v pre = Some e →
         is_SkipDir e = false →
         Walk_log walkFn root s = take (Datatypes.S i) (Walk_log walkFn root s)
         ∧ Walk walkFn root s = ((if is_SkipAll e then None else Some e), step walkFn v pre))
    ∧ from_tree (Walk_log walkFn root s).
Proof.
  unfold Walk_log, Walk.
  destruct (walk_logged (fs root) root s []) as (r & s' & l & Hlog & Hrun & Hc & Ho & Ht).
  rewrite Hlog, Hrun. cbn [app] in *.
  assert (Hlast : ∀ i v pre e,
    l !! i = Some (v, pre) → ret walkFn v pre = Some e → is_SkipDir e = false →
    r = Some e ∧ l = take (Datatypes.S i) l ∧ s' = step walkFn v pre).
  { intros i v pre e Hi Hret Hskip. unfold outcome in Ho.
    assert (Hnq : ∀ l', quiet walkFn l' → l' !! i = Some (v, pre) → False).
    { intros l' Hq Hi'. eapply Forall_lookup_1 in Hq; [| exact Hi'].
      cbn in Hq. specialize (Hq e Hret). congruence. }
    destruct r as [e'|]; [| by destruct (Hnq l Ho Hi)].
    destruct (is_SkipDir e') eqn:Hskip'; [by destruct (Hnq l Ho Hi) |].
    destruct Ho as (l0 & v' & pre' & -> & Hq0 & Hret').
    destruct (decide (i < length l0)) as [Hlt | Hge].
    { rewrite lookup_app_l in Hi by done. by destruct (Hnq l0 Hq0 Hi). }
    assert (i = length l0) as ->.
    { apply lookup_lt_Some in Hi. rewrite length_app in Hi. cbn in Hi. lia. }
    rewrite list_lookup_middle in Hi by done. injection Hi as <- <-.
    split_and!.
    - congruence.
    - rewrite take_ge; [done |]. rewrite length_app. cbn. lia.
    - clear -Hc. revert s Hc. induction l0 as [|[v0 p0] l0 IH]; intros s; cbn.
      + by intros [_ ->].
      + intros [_ Hc]. by apply (IH _ Hc). }
  destruct r as [e|].
  - destruct (is_SkipDir e || is_SkipAll e) eqn:Hsk.
    + exists None, s'. cbn. split_and!; [done | done | done | | done].
      intros i v pre e' Hi Hret Hskip.
      destruct (Hlast i v pre e' Hi Hret Hskip) as ([= ->] & Htake & ->).
      rewrite Hskip in Hsk. cbn in Hsk. rewrite Hsk. done.
    + exists (Some e), s'. cbn. apply orb_false_elim in Hsk as [Hsd Hsa].
      split_and!; [done | done | | | done].
      * intros e' [= <-]. unfold outcome in Ho. rewrite Hsd in Ho.
        destruct Ho as (l0 & v & pre & -> & _ & Hret).
        split_and!; [done.. |]. by exists l0, v, pre.
      * intros i v pre e' Hi Hret Hskip.
        destruct (Hlast i v pre e' Hi Hret Hskip) as ([= ->] & Htake & ->).
        by rewrite Hsa.
  - exists None, s'. cbn. split_and!; [done | done | done | | done].
    intros i v pre e' Hi Hret Hskip.
    by destruct (Hlast i v pre e' Hi Hret Hskip) as (? & _).
Qed.

End WalkLog.

(** *** Two walks of one tree *)

Section WalkSim.
Context `{GoLib} `{World} {S1 S2 : Type}.
Variable R : S1 → S2 → Prop.
Variable fn1 : string → WalkArg → S1 → option error * S1.
Variable fn2 : string → WalkArg → S2 → option error * S2.
Hypothesis Hsim : ∀ path arg s1 s2,
  R s1 s2 →
  (fn1 path arg s1).1 = (fn2 path arg s2).1
  ∧ R (fn1 path arg s1).2 (fn2 path arg s2).2.

Lemma walk_names_sim path children :
  Forall (λ nc, ∀ path, in_step R fn1 fn2 path nc.2) children →
  ∀ s1 s2, R s1 s2 →
    (walk_names fn1 path children s1).1 = (walk_names fn2 path children s2).1
    ∧ R (walk_names fn1 path children s1).2 (walk_names fn2 path children s2).2.
Proof.
  induction 1 as [|[name child] rest Hchild _ IH]; intros s1 s2 HR; [done |].
  cbn [walk_names snd] in *.
  destruct (Hchild (filepath_Join path name) s1 s2 HR) as [Hr HR'].
  destruct (walk fn1 _ child s1) as [r1 s1'], (walk fn2 _ child s2) as [r2 s2'].
  cbn in Hr, HR'. subst r2. destruct r1 as [e|]; [| by apply IH].
  destruct (is_SkipDir e && drops_SkipDir child); [by apply IH | done].
Qed.

Lemma walk_sim n : ∀ path, in_step R fn1 fn2 path n.
Proof.
  induction n as [size mtime | size mtime readErr children IH | lstatErr]
    using fsnode_tree_ind; intros path s1 s2 HR.
  - by apply Hsim.
  - destruct readErr as [msg|]; [by apply Hsim |].
    rewrite !walk_FsDir.
    destruct (Hsim path (Entry (mkFileInfo size mtime true)) s1 s2 HR) as [Hr HR'].
    destruct (fn1 path _ s1) as [r1 s1'], (fn2 path _ s2) as [r2 s2'].
    cbn in Hr, HR'. subst r2. destruct r1 as [e|]; [done |].
    by apply walk_names_sim.
  - by apply Hsim.
Qed.

Lemma Walk_sim root s1 s2 :
  R s1 s2 →
  (Walk fn1 root s1).1 = (Walk fn2 root s2).1
  ∧ R (Walk fn1 root s1).2 (Walk fn2 root s2).2.
Proof.
  intros HR. unfold Walk. destruct (walk_sim (fs root) root s1 s2 HR) as [Hr HR'].
  destruct (walk fn1 root _ s1) as [r1 s1'], (walk fn2 root _ s2) as [r2 s2'].
  cbn in Hr, HR'. subst r2. destruct r1 as [e|]; [| done].
  by destruct (is_SkipDir e || is_SkipAll e).
Qed.

End WalkSim.

(** Callbacks that return the same errors whatever their state make the
    same calls. *)
Lemma Walk_log_sim `{GoLib} `{World} {S1 S2 : Type}
    (fn1 : string → WalkArg → S1 → option error * S1)
    (fn2 : string → WalkArg → S2 → option error * S2) root s1 s2 :
  (∀ path arg s1 s2, (fn1 path arg s1).1 = (fn2 path arg s2).1) →
  (Walk_log fn1 root s1).*1 = (Walk_log fn2 root s2).*1
  ∧ (Walk fn1 root s1).1 = (Walk fn2 root s2).1.
Proof.
  intros Hctl. unfold Walk_log.
  destruct (Walk_sim (λ sl1 sl2, sl1.2.*1 = sl2.2.*1) (logged fn1) (logged fn2))
    with (root := root) (s1 := (s1, @nil (Visit * S1))) (s2 := (s2, @nil (Visit * S2)))
    as [Hr Hl]; [| done |].
  { intros path arg [t1 l1] [t2 l2] Hl. unfold logged. cbn [fst snd] in *.
    specialize (Hctl path arg t1 t2).
    destruct (fn1 path arg t1) as [r1 t1'], (fn2 path arg t2) as [r2 t2'].
    cbn in *. split; [done |]. by rewrite !fmap_app, Hl. }
  split; [done |].
  assert (Her : ∀ S (fn : string → WalkArg → S → option error * S) s,
            (Walk (logged fn) root (s, [])).1 = (Walk fn root s).1).
  { intros S fn s.
    destruct (Walk_sim (λ (sl : S * list (Visit * S)) (s : S), sl.1 = s) (logged fn) fn)
      with (root := root) (s1 := (s, @nil (Visit * S))) (s2 := s) as [Hr' _]; [| done | done].
    intros path arg [t l] t' <-. unfold logged. cbn [fst snd].
    by destruct (fn path arg t). }
  by rewrite <- (Her S1 fn1 s1), <- (Her S2 fn2 s2).
Qed.

(** ** Whole-tree staging as a fold over the calls of the walk *)

Section AddAllFacts.
Context `{GoLib} `{Collaborators} `{World}.

Lemma AddAll_walkFn_eq rootDir ignorePatterns proxyIndex fullPath arg p :
  AddAll_walkFn rootDir ignorePatterns proxyIndex fullPath arg p
  = (AddAll_ctl rootDir fullPath arg,
     pass_step rootDir ignorePatterns proxyIndex p (fullPath, arg)).
Proof.
  unfold AddAll_walkFn, AddAll_ctl, pass_step, accepted, eligible, stage.
  cbn [fst snd]. destruct arg as [info | info err]; [| done].
  destruct (filepath_Rel rootDir fullPath) as [e|relPath]; [done |].
  cbn zeta. case_bool_decide; [done |].
  destruct (IsSafePath _); cbn [negb]; [| done].
  destruct (in_RepoDir _); cbn [andb].
  { by destruct (fi_IsDir info). }
  destruct (fi_IsDir info); [done |].
  destruct (ShouldIgnore _ _ _); [done |].
  destruct (metadata_matches _ _ _); [done |].
  by destruct (HashAndStoreFile fullPath).
Qed.

Lemma AddAll_steps rootDir ignorePatterns proxyIndex visits p0 :
  foldl (λ p v, step (AddAll_walkFn rootDir ignorePatterns proxyIndex) v p) p0 visits
  = foldl (pass_step rootDir ignorePatterns proxyIndex) p0 visits.
Proof.
  revert p0. induction visits as [|[path arg] visits IH]; intros p0; [done |].
  cbn [foldl]. rewrite <- IH. f_equal. unfold step. cbn [fst snd].
  by rewrite AddAll_walkFn_eq.
Qed.

Lemma AddAll_walk rootDir ignorePatterns proxyIndex p0 :
  Walk (AddAll_walkFn rootDir ignorePatterns proxyIndex) rootDir p0
  = (AddAll_walk_err rootDir,
     foldl (pass_step rootDir ignorePatterns proxyIndex) p0 (AddAll_visits rootDir)).
Proof.
  set (fn := AddAll_walkFn rootDir ignorePatterns proxyIndex).
  destruct (Walk_spec fn rootDir p0) as (r & p' & Hrun & Hchain & _).
  destruct (Walk_log_sim fn (λ path arg (_ : unit), (AddAll_ctl rootDir path arg, tt))
              rootDir p0 tt) as [Hvisits Hret].
  { intros path arg p []. subst fn. by rewrite AddAll_walkFn_eq. }
  apply chain_foldl in Hchain. rewrite Hvisits in Hchain.
  unfold AddAll_walk_err. rewrite <- Hret, Hrun. cbn [fst]. f_equal.
  rewrite Hchain. subst fn. apply AddAll_steps.
Qed.



Lemma stage_entry_is_Some fullPath info old :
  is_Some old → is_Some (stage_entry fullPath info old).
Proof.
  unfold stage_entry. intros Hs. destruct (entry_matches old info); [done |].
  by destruct (HashAndStoreFile fullPath).
Qed.

Lemma stage_index fullPath cleanPath info p k :
  ps_index (stage fullPath cleanPath info p) !! k
  = if decide (k = cleanPath) then stage_entry fullPath info (ps_index p !! cleanPath)
    else ps_index p !! k.
Proof.
  unfold stage, stage_entry, metadata_matches, entry_matches.
  destruct (ps_index p !! cleanPath) as [entry|] eqn:He.
  - destruct ((Size entry =? fi_Size info)%Z && (ModTime entry =? fi_ModTimeUnix info)%Z).
    { cbn. case_decide; by subst. }
    destruct (HashAndStoreFile fullPath); cbn.
    + case_decide; by subst.
    + case_decide; [subst; apply lookup_insert_eq | by apply lookup_insert_ne].
  - destruct (HashAndStoreFile fullPath); cbn.
    + case_decide; by subst.
    + case_decide; [subst; apply lookup_insert_eq | by apply lookup_insert_ne].
Qed.

Lemma stage_seen fullPath cleanPath info p k :
  seen_at (ps_seen (stage fullPath cleanPath info p)) k
  = if decide (k = cleanPath) then true else seen_at (ps_seen p) k.
Proof.
  assert (Hs : ps_seen (stage fullPath cleanPath info p) = <[cleanPath := true]> (ps_seen p)).
  { unfold stage. destruct (metadata_matches _ _ _); [done |].
    by destruct (HashAndStoreFile fullPath). }
  rewrite Hs. unfold seen_at. case_decide.
  - subst. by rewrite lookup_insert_eq.
  - by rewrite lookup_insert_ne.
Qed.

Section Fold.
Variables (rootDir : string) (ignorePatterns : list IgnorePattern)
          (proxyIndex : gmap string string).

Abbreviation accepts := (accepted rootDir ignorePatterns proxyIndex).
Abbreviation steps := (foldl (pass_step rootDir ignorePatterns proxyIndex)).

Lemma fold_index visits p0 k :
  ps_index (steps p0 visits) !! k
  = foldl (key_step rootDir ignorePatterns proxyIndex k) (ps_index p0 !! k) visits.
Proof.
  revert p0. induction visits as [|v visits IH]; intros p0; [done |].
  cbn [foldl]. rewrite IH. f_equal. unfold pass_step, key_step.
  destruct (accepts v) as [[cleanPath info]|]; [| done].
  rewrite stage_index. destruct (decide (k = cleanPath)) as [->|Hne].
  - by rewrite decide_True.
  - by rewrite decide_False.
Qed.

Lemma fold_seen visits p0 k :
  seen_at (ps_seen (steps p0 visits)) k = true
  ↔ seen_at (ps_seen p0) k = true ∨ ∃ v info, v ∈ visits ∧ accepts v = Some (k, info).
Proof.
  revert p0. induction visits as [|v visits IH]; intros p0.
  { cbn. split; [by left | intros [? | (v & info & Hin & _)]; [done |]].
    by apply elem_of_nil in Hin. }
  cbn [foldl]. rewrite IH. unfold pass_step at 1.
  destruct (accepts v) as [[cleanPath info]|] eqn:Hacc.
  - rewrite stage_seen. split.
    + intros [Hs | (v' & info' & Hin & Hacc')].
      * case_decide; [subst | by left].
        right. exists v, info. split; [by left | done].
      * right. exists v', info'. split; [by right | done].
    + intros [Hs | (v' & info' & Hin & Hacc')].
      * left. by case_decide.
      * apply elem_of_cons in Hin as [-> | Hin].
        -- left. rewrite Hacc in Hacc'. injection Hacc' as -> ->. by rewrite decide_True.
        -- right. by exists v', info'.
  - split.
    + intros [Hs | (v' & info' & Hin & Hacc')]; [by left |].
      right. exists v', info'. split; [by right | done].
    + intros [Hs | (v' & info' & Hin & Hacc')]; [by left |].
      apply elem_of_cons in Hin as [-> | Hin]; [congruence |].
      right. by exists v', info'.
Qed.

Lemma key_fold_id visits k old :
  (∀ v info, v ∈ visits → accepts v ≠ Some (k, info)) →
  foldl (key_step rootDir ignorePatterns proxyIndex k) old visits = old.
Proof.
  induction visits as [|v visits IH]; intros Hno; [done |].
  cbn [foldl]. rewrite <- IH at 2.
  2: { intros v' info Hin. apply Hno. by right. }
  f_equal. unfold key_step.
  destruct (accepts v) as [[cleanPath info]|] eqn:Hacc; [| done].
  case_decide; [| done]. subst. exfalso. eapply (Hno v info); [by left | done].
Qed.

Lemma key_fold_is_Some visits k old :
  is_Some old → is_Some (foldl (key_step rootDir ignorePatterns proxyIndex k) old visits).
Proof.
  revert old. induction visits as [|v visits IH]; intros old Hs; [done |].
  cbn [foldl]. apply IH. unfold key_step.
  destruct (accepts v) as [[cleanPath info]|]; [| done].
  case_decide; [| done]. by apply stage_entry_is_Some.
Qed.

Lemma accepts_eligible v cleanPath info :
  accepts v = Some (cleanPath, info) → eligible rootDir v = Some (cleanPath, info).
Proof.
  unfold accepted. destruct (eligible rootDir v) as [[c i]|]; [| done].
  by destruct (ShouldIgnore _ _ _).
Qed.

Lemma elem_of_eligible_paths visits v cleanPath info :
  v ∈ visits → eligible rootDir v = Some (cleanPath, info) →
  cleanPath ∈ eligible_paths rootDir visits.
Proof.
  intros Hin Hel. apply list_elem_of_omap. exists v. split; [done |]. by rewrite Hel.
Qed.

Lemma eligible_paths_cons v visits :
  eligible_paths rootDir (v :: visits)
  = match eligible rootDir v with
    | Some (cleanPath, _) => cleanPath :: eligible_paths rootDir visits
    | None => eligible_paths rootDir visits
    end.
Proof. unfold eligible_paths. cbn. by destruct (eligible rootDir v) as [[? ?]|]. Qed.

Lemma key_fold_once visits k old v info :
  NoDup (eligible_paths rootDir visits) →
  v ∈ visits → accepts v = Some (k, info) →
  foldl (key_step rootDir ignorePatterns proxyIndex k) old visits = stage_entry v.1 info old.
Proof.
  revert old. induction visits as [|v0 visits IH]; intros old Hnd Hin Hacc.
  { by apply elem_of_nil in Hin. }
  cbn [foldl]. rewrite eligible_paths_cons in Hnd.
  destruct (accepts v0) as [[c0 info0]|] eqn:Hacc0.
  - pose proof (accepts_eligible _ _ _ Hacc0) as Hel0. rewrite Hel0 in Hnd.
    apply NoDup_cons in Hnd as [Hfresh Hnd].
    destruct (decide (c0 = k)) as [-> | Hne].
    + assert (v = v0) as ->.
      { apply elem_of_cons in Hin as [-> | Hin]; [done |]. exfalso. apply Hfresh.
        eapply elem_of_eligible_paths; [done |]. by eapply accepts_eligible. }
      assert (info0 = info) as -> by congruence.
      unfold key_step at 2. rewrite Hacc0, decide_True by done.
      apply key_fold_id. intros v' info' Hin' Hacc'. apply Hfresh.
      eapply elem_of_eligible_paths; [done |]. by eapply accepts_eligible.
    + unfold key_step at 2. rewrite Hacc0, decide_False by done.
      apply IH; [done | | done].
      apply elem_of_cons in Hin as [-> | Hin]; [congruence | done].
  - unfold key_step at 2. rewrite Hacc0. apply IH; [| | done].
    + destruct (eligible rootDir v0) as [[c i]|]; [| done].
      by apply NoDup_cons in Hnd as [_ ?].
    + apply elem_of_cons in Hin as [-> | Hin]; [congruence | done].
Qed.

End Fold.

Lemma elem_of_collect_unseen (seen : gmap string bool)
    (kvs : list (string * IndexEntry)) path :
  path ∈ collect_unseen seen kvs ↔ path ∈ kvs.*1 ∧ seen_at seen path = false.
Proof.
  unfold collect_unseen.
  enough (∀ acc,
    path ∈ foldl (λ toDelete kv,
                    if negb (seen_at seen kv.1) then toDelete ++ [kv.1] else toDelete)
                 acc kvs
    ↔ path ∈ acc ∨ (path ∈ kvs.*1 ∧ seen_at seen path = false)) as Hgen.
  { rewrite Hgen. split; [intros [Hnil | ?]; [by apply elem_of_nil in Hnil | done] | by right]. }
  induction kvs as [|[k0 v0] kvs IH]; intros acc; cbn [foldl fst].
  - split; [by left | intros [? | [Hnil _]]; [done | by apply elem_of_nil in Hnil]].
  - rewrite IH, fmap_cons. cbn [fst]. destruct (seen_at seen k0) eqn:Hk0; cbn [negb].
    + split; [intros [? | [? ?]]; [by left | right; split; [by right | done]] |].
      intros [? | [Hin Hp]]; [by left |].
      apply elem_of_cons in Hin as [-> | Hin]; [congruence | by right].
    + rewrite elem_of_app, list_elem_of_singleton. split.
      * intros [[? | ->] | [? ?]]; [by left | right; split; [by left | done] |
                                    right; split; [by right | done]].
      * intros [? | [Hin Hp]]; [by left; left |].
        apply elem_of_cons in Hin as [-> | Hin]; [by left; right | by right].
Qed.

(** The deletion pass keeps exactly the keys that were seen. *)
Lemma sweep_lookup (seen : gmap string bool) (index : gmap string IndexEntry) k :
  range_enumerates →
  delete_all (collect_unseen seen (range index)) index !! k
  = if seen_at seen k then index !! k else None.
Proof.
  intros Hrange. rewrite delete_all_lookup. case_decide as Hin.
  - apply elem_of_collect_unseen in Hin as [_ ->]. done.
  - destruct (seen_at seen k) eqn:Hseen; [done |].
    destruct (index !! k) as [e|] eqn:He; [| done].
    exfalso. apply Hin. apply elem_of_collect_unseen. split; [| done].
    apply elem_of_range_keys; [done | by rewrite He].
Qed.

(** [AddAll_fn], once the ignore rules are loaded and the root is resolved. *)
Lemma AddAll_fn_run (t : Txn) ignorePatterns rootDir :
  LoadIgnorePatterns = inr ignorePatterns →
  filepath_Abs "." = inr rootDir →
  let p := foldl (pass_step rootDir ignorePatterns (hash_view (tx_index t)))
                 (mkPass (tx_index t) ∅ (tx_out t)) (AddAll_visits rootDir) in
  AddAll_fn t =
  match AddAll_walk_err rootDir with
  | Some err => (Some err, mkTxn (ps_index p) (ps_out p))
  | None =>
    (None, mkTxn (delete_all (collect_unseen (ps_seen p) (range (ps_index p))) (ps_index p))
                 (ps_out p))
  end.
Proof.
  intros Hpat Habs. unfold AddAll_fn. rewrite Hpat, Habs, AddAll_walk.
  by destruct (AddAll_walk_err rootDir).
Qed.

End AddAllFacts.

(** ** Staging: the fast path and the deletion pass *)

Section StagingFacts.
Context `{GoLib} `{Collaborators} `{World}.

Lemma metadata_matches_entry (index : gmap string IndexEntry) cleanPath info :
  metadata_matches index cleanPath info = entry_matches (index !! cleanPath) info.
Proof. done. Qed.

Lemma entry_matches_true entry info :
  Size entry = fi_Size info → ModTime entry = fi_ModTimeUnix info →
  entry_matches (Some entry) info = true.
Proof. intros Hs Hm. cbn. by rewrite Hs, Hm, !Z.eqb_refl. Qed.

Lemma stage_entry_matching fullPath info old :
  entry_matches old info = true → stage_entry fullPath info old = old.
Proof. unfold stage_entry. by intros ->. Qed.

Lemma AddFile_walkFn_state absRepoRoot ignorePatterns proxyIndex fullPath arg t :
  (AddFile_walkFn absRepoRoot ignorePatterns proxyIndex fullPath arg t).2
  = file_step absRepoRoot ignorePatterns proxyIndex t (fullPath, arg).
Proof.
  unfold AddFile_walkFn, file_step, accepted, eligible, file_stage.
  cbn [fst snd]. destruct arg as [info | info err]; [| done].
  destruct (filepath_Rel absRepoRoot fullPath) as [e|relPath]; [done |].
  cbn zeta. case_bool_decide; [done |].
  destruct (in_RepoDir _).
  { destruct (IsSafePath _); cbn [negb]; by destruct (fi_IsDir info). }
  destruct (fi_IsDir info).
  { by destruct (IsSafePath _). }
  destruct (IsSafePath _); cbn [negb]; [| done].
  destruct (ShouldIgnore _ _ _); [done |].
  destruct (metadata_matches _ _ _) eqn:Hm; [by destruct t |].
  by destruct (HashAndStoreFile fullPath).
Qed.

Lemma AddFile_steps absRepoRoot ignorePatterns proxyIndex visits t :
  foldl (λ t v, step (AddFile_walkFn absRepoRoot ignorePatterns proxyIndex) v t) t visits
  = foldl (file_step absRepoRoot ignorePatterns proxyIndex) t visits.
Proof.
  revert t. induction visits as [|[path arg] visits IH]; intros t; [done |].
  cbn [foldl]. rewrite <- IH. f_equal. unfold step. cbn [fst snd].
  apply AddFile_walkFn_state.
Qed.

Lemma file_stage_index fullPath cleanPath info t k :
  tx_index (file_stage fullPath cleanPath info t) !! k
  = if decide (k = cleanPath) then stage_entry fullPath info (tx_index t !! cleanPath)
    else tx_index t !! k.
Proof.
  unfold file_stage, stage_entry. rewrite metadata_matches_entry.
  destruct (entry_matches _ _).
  { case_decide; by subst. }
  destruct (HashAndStoreFile fullPath); cbn.
  - case_decide; by subst.
  - case_decide; [subst; apply lookup_insert_eq | by apply lookup_insert_ne].
Qed.

Lemma file_fold_index absRepoRoot ignorePatterns proxyIndex visits t k :
  tx_index (foldl (file_step absRepoRoot ignorePatterns proxyIndex) t visits) !! k
  = foldl (key_step absRepoRoot ignorePatterns proxyIndex k) (tx_index t !! k) visits.
Proof.
  revert t. induction visits as [|v visits IH]; intros t; [done |].
  cbn [foldl]. rewrite IH. f_equal. unfold file_step, key_step.
  destruct (accepted _ _ _ v) as [[cleanPath info]|]; [| done].
  rewrite file_stage_index. destruct (decide (k = cleanPath)) as [->|Hne].
  - by rewrite decide_True.
  - by rewrite decide_False.
Qed.

(** A file whose entry carries its size and modification time keeps that
    entry through all the calls, when no other call is about its path. *)
Lemma key_fold_matching rootDir ignorePatterns proxyIndex visits k old v info :
  NoDup (eligible_paths rootDir visits) →
  v ∈ visits → eligible rootDir v = Some (k, info) →
  entry_matches old info = true →
  foldl (key_step rootDir ignorePatterns proxyIndex k) old visits = old.
Proof.
  induction visits as [|v0 visits IH]; intros Hnd Hin Hel Hm.
  { by apply elem_of_nil in Hin. }
  cbn [foldl]. rewrite eligible_paths_cons in Hnd.
  destruct (eligible rootDir v0) as [[c0 info0]|] eqn:Hel0.
  - apply NoDup_cons in Hnd as [Hfresh Hnd].
    destruct (decide (c0 = k)) as [-> | Hne].
    + assert (v = v0) as ->.
      { apply elem_of_cons in Hin as [-> | Hin]; [done |]. exfalso. apply Hfresh.
        by eapply elem_of_eligible_paths. }
      assert (info0 = info) as -> by congruence.
      assert (key_step rootDir ignorePatterns proxyIndex k old v0 = old) as ->.
      { unfold key_step, accepted. rewrite Hel0.
        destruct (ShouldIgnore _ _ _); [done |]. rewrite decide_True by done.
        by apply stage_entry_matching. }
      apply key_fold_id. intros v' info' Hin' Hacc'. apply Hfresh.
      eapply elem_of_eligible_paths; [done |]. by eapply accepts_eligible.
    + assert (key_step rootDir ignorePatterns proxyIndex k old v0 = old) as ->.
      { unfold key_step, accepted. rewrite Hel0.
        destruct (ShouldIgnore _ _ _); [done |]. by rewrite decide_False. }
      apply IH; [done | | done | done].
      apply elem_of_cons in Hin as [-> | Hin]; [congruence | done].
  - assert (key_step rootDir ignorePatterns proxyIndex k old v0 = old) as ->.
    { unfold key_step, accepted. by rewrite Hel0. }
    apply IH; [done | | done | done].
    apply elem_of_cons in Hin as [-> | Hin]; [congruence | done].
Qed.

(** The index [AddAll_fn] returns, key by key. *)
Lemma AddAll_fn_lookup (t t' : Txn) ignorePatterns rootDir :
  range_enumerates →
  LoadIgnorePatterns = inr ignorePatterns →
  filepath_Abs "." = inr rootDir →
  AddAll_fn t = (None, t') →
  let proxyIndex := hash_view (tx_index t) in
  let p := foldl (pass_step rootDir ignorePatterns proxyIndex)
                 (mkPass (tx_index t) ∅ (tx_out t)) (AddAll_visits rootDir) in
  AddAll_walk_err rootDir = None
  ∧ tx_out t' = ps_out p
  ∧ ∀ k, tx_index t' !! k =
         if seen_at (ps_seen p) k
         then foldl (key_step rootDir ignorePatterns proxyIndex k) (tx_index t !! k)
                    (AddAll_visits rootDir)
         else None.
Proof.
  intros Hrange Hpat Habs Hrun. cbn zeta.
  rewrite (AddAll_fn_run t ignorePatterns rootDir Hpat Habs) in Hrun. cbn zeta in Hrun.
  destruct (AddAll_walk_err rootDir); [done |]. injection Hrun as <-.
  split_and!; [done.. |]. intros k. cbn [tx_index].
  rewrite sweep_lookup by done. by rewrite fold_index.
Qed.

(** C2.  A call of either callback for a file whose index entry carries the
    size and the modification time the file has now hashes nothing, prints
    nothing and leaves the index as it is; and when no other call of the walk
    is about the same canonical path, the entry is the same after the whole
    of [AddFile], and after the whole of [AddAll] for an accepted file. *)
Theorem fast_path_keeps_entry
    (root : string) (ignorePatterns : list IgnorePattern)
    (proxyIndex : gmap string string)
    (fullPath relPath : string) (info : FileInfo) (entry : IndexEntry) :
  filepath_Rel root fullPath = inr relPath →
  Size entry = fi_Size info →
  ModTime entry = fi_ModTimeUnix info →
  (∀ t : Txn,
     tx_index t !! filepath_Clean relPath = Some entry →
     (AddFile_walkFn root ignorePatterns proxyIndex fullPath (Entry info) t).2 = t)
  ∧ (∀ p : Pass,
       ps_index p !! filepath_Clean relPath = Some entry →
       let p' := (AddAll_walkFn root ignorePatterns proxyIndex fullPath (Entry info) p).2 in
       ps_index p' = ps_index p ∧ ps_out p' = ps_out p)
  ∧ (∀ (absInputPath : string) (t t' : Txn) (r : option error),
       tx_index t !! filepath_Clean relPath = Some entry →
       LoadIgnorePatterns = inr ignorePatterns →
       AddFile_fn absInputPath root t = (r, t') →
       let visits :=
         (Walk_log (AddFile_walkFn root ignorePatterns (hash_view (tx_index t)))
                   absInputPath t).*1 in
       (fullPath, Entry info) ∈ visits →
       eligible root (fullPath, Entry info) = Some (filepath_Clean relPath, info) →
       NoDup (eligible_paths root visits) →
       tx_index t' !! filepath_Clean relPath = Some entry)
  ∧ (∀ t t' : Txn,
       range_enumerates →
       tx_index t !! filepath_Clean relPath = Some entry →
       LoadIgnorePatterns = inr ignorePatterns →
       filepath_Abs "." = inr root →
       AddAll_fn t = (None, t') →
       (fullPath, Entry info) ∈ AddAll_visits root →
       accepted root ignorePatterns (hash_view (tx_index t)) (fullPath, Entry info)
       = Some (filepath_Clean relPath, info) →
       NoDup (eligible_paths root (AddAll_visits root)) →
       tx_index t' !! filepath_Clean relPath = Some entry).
Proof.
  intros Hrel Hsize Hmtime.
  pose proof (entry_matches_true entry info Hsize Hmtime) as Hm.
  split_and!.
  - intros t Hentry. rewrite AddFile_walkFn_state. unfold file_step, accepted, eligible.
    cbn [fst snd]. rewrite Hrel. cbn zeta.
    repeat (match goal with |- context [if ?b then _ else _] => destruct b end; try done).
    unfold file_stage. by rewrite metadata_matches_entry, Hentry, Hm.
  - intros p Hentry. cbn zeta. rewrite AddAll_walkFn_eq. cbn [snd].
    unfold pass_step, accepted, eligible. cbn [fst snd]. rewrite Hrel. cbn zeta.
    repeat (match goal with |- context [if ?b then _ else _] => destruct b end; try done).
    unfold stage. by rewrite metadata_matches_entry, Hentry, Hm.
  - intros absInputPath t t' r Hentry Hpat Hrun visits Hin Hel Hnd.
    unfold AddFile_fn in Hrun. rewrite Hpat in Hrun.
    set (fn := AddFile_walkFn root ignorePatterns (hash_view (tx_index t))) in *.
    destruct (Walk_spec fn absInputPath t) as (r0 & t0 & Hwalk & Hchain & _).
    rewrite Hwalk in Hrun. injection Hrun as -> ->.
    apply chain_foldl in Hchain. fold visits in Hchain.
    assert (Hfold : t' = foldl (file_step root ignorePatterns (hash_view (tx_index t)))
                               t visits).
    { rewrite Hchain. subst fn. apply AddFile_steps. }
    rewrite Hfold, file_fold_index, Hentry.
    by eapply key_fold_matching.
  - intros t t' Hrange Hentry Hpat Habs Hrun Hin Hacc Hnd.
    destruct (AddAll_fn_lookup t t' ignorePatterns root Hrange Hpat Habs Hrun)
      as (_ & _ & Hlook).
    rewrite Hlook, Hentry.
    assert (seen_at (ps_seen (foldl (pass_step root ignorePatterns (hash_view (tx_index t)))
              (mkPass (tx_index t) ∅ (tx_out t)) (AddAll_visits root)))
              (filepath_Clean relPath) = true) as ->.
    { apply fold_seen. right. by exists (fullPath, Entry info), info. }
    eapply key_fold_matching; [done | done | | done].
    by eapply accepts_eligible.
Qed.

(** C5.  [AddAll] marks in [seen] the canonical path of every accepted file
    (one that passed the safety check and the ignore rules), whichever way
    the file then goes; after the walk it collects the keys of the index that
    are not marked and deletes them.  So a key no file of the walk has any
    more, and a key whose file the ignore rules now match, are not in the
    resulting index. *)
Theorem AddAll_sweeps_unseen (t t' : Txn) ignorePatterns rootDir :
  range_enumerates →
  LoadIgnorePatterns = inr ignorePatterns →
  filepath_Abs "." = inr rootDir →
  AddAll_fn t = (None, t') →
  let proxyIndex := hash_view (tx_index t) in
  ∃ p : Pass,
    Walk (AddAll_walkFn rootDir ignorePatterns proxyIndex) rootDir
         (mkPass (tx_index t) ∅ (tx_out t)) = (None, p)
    ∧ (∀ path, seen_at (ps_seen p) path = true
               ↔ ∃ v info, v ∈ AddAll_visits rootDir
                           ∧ accepted rootDir ignorePatterns proxyIndex v = Some (path, info))
    ∧ tx_index t' = delete_all (collect_unseen (ps_seen p) (range (ps_index p))) (ps_index p)
    ∧ (∀ path, tx_index t' !! path
               = if seen_at (ps_seen p) path then ps_index p !! path else None)
    ∧ (∀ path, is_Some (tx_index t !! path) → seen_at (ps_seen p) path = true →
               is_Some (tx_index t' !! path))
    ∧ (∀ path,
         (∀ v info, v ∈ AddAll_visits rootDir → eligible rootDir v ≠ Some (path, info)) →
         tx_index t' !! path = None)
    ∧ (∀ path,
         (∀ v info, v ∈ AddAll_visits rootDir → eligible rootDir v = Some (path, info) →
                    ShouldIgnore path ignorePatterns proxyIndex = true) →
         tx_index t' !! path = None).
Proof.
  intros Hrange Hpat Habs Hrun. cbn zeta.
  set (proxyIndex := hash_view (tx_index t)).
  set (p := foldl (pass_step rootDir ignorePatterns proxyIndex)
                  (mkPass (tx_index t) ∅ (tx_out t)) (AddAll_visits rootDir)).
  pose proof Hrun as Hrun'.
  rewrite (AddAll_fn_run t ignorePatterns rootDir Hpat Habs) in Hrun'. cbn zeta in Hrun'.
  fold proxyIndex p in Hrun'.
  assert (Hseen : ∀ path, seen_at (ps_seen p) path = true
            ↔ ∃ v info, v ∈ AddAll_visits rootDir
                        ∧ accepted rootDir ignorePatterns proxyIndex v = Some (path, info)).
  { intros path. subst p. rewrite fold_seen. cbn. unfold seen_at at 1.
    rewrite lookup_empty. cbn. split; [by intros [? | ?] | by right]. }
  assert (Hlook : ∀ path, tx_index t' !! path
            = if seen_at (ps_seen p) path then ps_index p !! path else None).
  { intros path. destruct (AddAll_walk_err rootDir); [done |]. injection Hrun' as <-.
    cbn. by apply sweep_lookup. }
  assert (Hgone : ∀ path,
            (∀ v info, v ∈ AddAll_visits rootDir →
               accepted rootDir ignorePatterns proxyIndex v ≠ Some (path, info)) →
            tx_index t' !! path = None).
  { intros path Hno. rewrite Hlook. destruct (seen_at (ps_seen p) path) eqn:Hs; [| done].
    apply Hseen in Hs as (v & info & Hin & Hacc). by destruct (Hno v info Hin). }
  exists p. split_and!.
  - rewrite AddAll_walk. fold p. by destruct (AddAll_walk_err rootDir).
  - done.
  - destruct (AddAll_walk_err rootDir); [done |]. by injection Hrun' as <-.
  - done.
  - intros path Hsome Hs. rewrite Hlook, Hs. subst p. rewrite fold_index.
    by apply key_fold_is_Some.
  - intros path Hno. apply Hgone. intros v info Hin Hacc.
    apply (Hno v info Hin). by eapply accepts_eligible.
  - intros path Hign. apply Hgone. intros v info Hin Hacc.
    pose proof (accepts_eligible _ _ _ _ _ _ Hacc) as Hel.
    specialize (Hign v info Hin Hel).
    unfold accepted in Hacc. rewrite Hel, Hign in Hacc. done.
Qed.

End StagingFacts.

(** ** Staging: what a failure does *)

Section FailureFacts.
Context `{GoLib} `{Collaborators} `{World}.

Lemma stage_out fullPath cleanPath info p :
  ps_out (stage fullPath cleanPath info p)
  = ps_out p ++ stage_events fullPath cleanPath info (ps_index p !! cleanPath).
Proof.
  unfold stage, stage_events. rewrite metadata_matches_entry.
  destruct (entry_matches _ _); [by rewrite app_nil_r |].
  by destruct (HashAndStoreFile fullPath).
Qed.

Section Events.
Variables (rootDir : string) (ignorePatterns : list IgnorePattern)
          (proxyIndex : gmap string string).

Abbreviation accepts := (accepted rootDir ignorePatterns proxyIndex).
Abbreviation steps := (foldl (pass_step rootDir ignorePatterns proxyIndex)).

(** The output after the walk: what was there, and for each accepted file
    what staging it added, given the entry it found. *)
Lemma fold_out_elem visits p0 ev :
  ev ∈ ps_out (steps p0 visits)
  ↔ ev ∈ ps_out p0
    ∨ ∃ i v cleanPath info,
        visits !! i = Some v ∧ accepts v = Some (cleanPath, info)
        ∧ ev ∈ stage_events v.1 cleanPath info
                 (ps_index (steps p0 (take i visits)) !! cleanPath).
Proof.
  induction visits as [|v visits IH] using rev_ind.
  { cbn. split; [by left | intros [? | (i & v & c & info & Hi & _)]; done]. }
  rewrite foldl_app. cbn [foldl]. unfold pass_step at 1.
  assert (Hpre : ∀ i, i < length visits →
            take i (visits ++ [v]) = take i visits ∧ (visits ++ [v]) !! i = visits !! i).
  { intros i Hi. split; [apply take_app_le; lia | by apply lookup_app_l]. }
  assert (Hold : (∃ i v' cleanPath info,
             visits !! i = Some v' ∧ accepts v' = Some (cleanPath, info)
             ∧ ev ∈ stage_events v'.1 cleanPath info
                      (ps_index (steps p0 (take i visits)) !! cleanPath))
           → ∃ i v' cleanPath info,
             (visits ++ [v]) !! i = Some v' ∧ accepts v' = Some (cleanPath, info)
             ∧ ev ∈ stage_events v'.1 cleanPath info
                      (ps_index (steps p0 (take i (visits ++ [v]))) !! cleanPath)).
  { intros (i & v' & c & info & Hi & Hacc & Hev). exists i, v', c, info.
    destruct (Hpre i) as [-> ->]; [by eapply lookup_lt_Some | done]. }
  assert (Hnew : ∀ i v' cleanPath info,
             (visits ++ [v]) !! i = Some v' → accepts v' = Some (cleanPath, info) →
             ev ∈ stage_events v'.1 cleanPath info
                    (ps_index (steps p0 (take i (visits ++ [v]))) !! cleanPath) →
             (∃ i v' cleanPath info,
                visits !! i = Some v' ∧ accepts v' = Some (cleanPath, info)
                ∧ ev ∈ stage_events v'.1 cleanPath info
                         (ps_index (steps p0 (take i visits)) !! cleanPath))
             ∨ (v' = v ∧ i = length visits)).
  { intros i v' c info Hi Hacc Hev.
    destruct (decide (i < length visits)) as [Hlt | Hge].
    - left. exists i, v', c, info. destruct (Hpre i Hlt) as [Ht Hl].
      by rewrite <- Ht, <- Hl.
    - right. assert (i = length visits) as ->.
      { apply lookup_lt_Some in Hi. rewrite length_app in Hi. cbn in Hi. lia. }
      rewrite list_lookup_middle in Hi by done. by injection Hi as <-. }
  destruct (accepts v) as [[c info]|] eqn:Hacc.
  - rewrite stage_out, elem_of_app, IH. split.
    + intros [[? | Hex] | Hev]; [by left | right; by apply Hold |].
      right. exists (length visits), v, c, info.
      rewrite list_lookup_middle by done. split_and!; [done.. |].
      by rewrite take_app_length.
    + intros [? | (i & v' & c' & info' & Hi & Hacc' & Hev)]; [by left; left |].
      destruct (Hnew i v' c' info' Hi Hacc' Hev) as [Hex | [-> ->]].
      * left. by right.
      * right. rewrite Hacc in Hacc'. injection Hacc' as <- <-.
        by rewrite take_app_length in Hev.
  - rewrite IH. split.
    + intros [? | Hex]; [by left | right; by apply Hold].
    + intros [? | (i & v' & c' & info' & Hi & Hacc' & Hev)]; [by left |].
      destruct (Hnew i v' c' info' Hi Hacc' Hev) as [Hex | [-> ->]]; [by right |].
      congruence.
Qed.

(** With one call for each path, a file finds the entry the walk began
    with. *)
Lemma fold_index_before visits p0 i v cleanPath info :
  NoDup (eligible_paths rootDir visits) →
  visits !! i = Some v → eligible rootDir v = Some (cleanPath, info) →
  ps_index (steps p0 (take i visits)) !! cleanPath = ps_index p0 !! cleanPath.
Proof.
  intros Hnd Hi Hel. rewrite fold_index. apply key_fold_id.
  intros v' info' Hin Hacc. apply accepts_eligible in Hacc.
  rewrite <- (take_drop_middle visits i v Hi) in Hnd.
  unfold eligible_paths in Hnd. rewrite omap_app in Hnd.
  apply NoDup_app in Hnd as (_ & Hdisj & _).
  apply (Hdisj cleanPath).
  - apply list_elem_of_omap. exists v'. split; [done |]. by rewrite Hacc.
  - apply list_elem_of_omap. exists v. split; [by left |]. by rewrite Hel.
Qed.

End Events.

Lemma AddAll_ctl_error rootDir fullPath arg e :
  AddAll_ctl rootDir fullPath arg = Some e → is_SkipDir e = false →
  ∃ info, arg = Failed info e.
Proof.
  unfold AddAll_ctl. destruct arg as [info | info err].
  - destruct (filepath_Rel rootDir fullPath); [done |]. cbn zeta.
    repeat (match goal with |- context [if ?b then _ else _] => destruct b end; try done).
    by intros [= <-].
  - intros [= <-] _. by exists info.
Qed.

(** The walk of [AddAll] fails only on an error [filepath.Walk] reports. *)
Lemma AddAll_walk_err_Failed rootDir e :
  AddAll_walk_err rootDir = Some e →
  ∃ v info, v ∈ AddAll_visits rootDir ∧ v.2 = Failed info e.
Proof.
  unfold AddAll_walk_err, AddAll_visits. intros Herr.
  set (fn := λ path arg (_ : unit), (AddAll_ctl rootDir path arg, tt)) in *.
  destruct (Walk_spec fn rootDir tt) as (r & s' & Hrun & _ & Hlast & _).
  rewrite Hrun in Herr. cbn in Herr. subst r.
  destruct (Hlast e eq_refl) as (Hsd & _ & l0 & v & pre & Hlog & Hret).
  unfold ret in Hret. subst fn. cbn in Hret.
  destruct (AddAll_ctl_error _ _ _ _ Hret Hsd) as [info Harg].
  exists v, info. split; [| done]. rewrite Hlog, fmap_app. apply elem_of_app. right.
  cbn. by left.
Qed.

Lemma walk_arg_Failed n info err :
  walk_arg n = Failed info err → ∃ msg, err = PathError msg.
Proof.
  destruct n as [| size mtime [msg|] children | msg]; cbn; try done.
  - intros [= _ <-]. by exists msg.
  - intros [= _ <-]. by exists msg.
Qed.

(** The callback of [AddFile] on an accepted file. *)
Lemma AddFile_walkFn_accepted absRepoRoot ignorePatterns proxyIndex fullPath arg
    cleanPath info t :
  accepted absRepoRoot ignorePatterns proxyIndex (fullPath, arg) = Some (cleanPath, info) →
  AddFile_walkFn absRepoRoot ignorePatterns proxyIndex fullPath arg t
  = if metadata_matches (tx_index t) cleanPath info then (None, t)
    else
      match HashAndStoreFile fullPath with
      | inl err =>
        (Some (Errorf_w ("failed to hash " +:+ fullPath +:+ ": ") err),
         mkTxn (tx_index t) (tx_out t ++ [Hashed fullPath]))
      | inr hash =>
        (None, mkTxn (<[cleanPath := entry_of hash info]> (tx_index t))
                     (tx_out t ++ [Hashed fullPath]))
      end.
Proof.
  unfold AddFile_walkFn, accepted, eligible. cbn [fst snd].
  destruct arg as [info0 | info0 err]; [| done].
  destruct (filepath_Rel absRepoRoot fullPath) as [e|relPath]; [done |].
  cbn zeta. case_bool_decide; [done |].
  destruct (IsSafePath _); cbn [negb]; [| done].
  destruct (in_RepoDir _); [done |].
  destruct (fi_IsDir info0); [done |].
  destruct (ShouldIgnore _ _ _); [done |].
  by intros [= <- <-].
Qed.

(** [AddFile] does nothing where the marker directory is missing. *)
Lemma AddFile_requires_marker inputPath d out :
  Stat_IsNotExist RepoDir = true →
  AddFile inputPath d out
  = (Some (errorString "not a kitcat repository (run `kitcat init`)"), d, out).
Proof. intros Hmissing. unfold AddFile. by rewrite Hmissing. Qed.

(** A call of the walk of [AddFile] that returns an error ends [AddFile]:
    the error is returned, the file is not written, and the output is the
    one that call left. *)
Lemma AddFile_aborts inputPath d out absInputPath absRepoRoot index out1
    ignorePatterns i v pre e :
  Stat_IsNotExist RepoDir = false →
  filepath_Abs inputPath = inr absInputPath →
  filepath_Abs "." = inr absRepoRoot →
  Stat_IsNotExist absInputPath = false →
  MkdirAll_err = None →
  lock_err = None →
  LoadIndexWithMeta d out = (inr index, out1) →
  LoadIgnorePatterns = inr ignorePatterns →
  let fn := AddFile_walkFn absRepoRoot ignorePatterns (hash_view index) in
  Walk_log fn absInputPath (mkTxn index out1) !! i = Some (v, pre) →
  ret fn v pre = Some e →
  is_SkipDir e = false → is_SkipAll e = false →
  AddFile inputPath d out = (Some e, d, tx_out (step fn v pre)).
Proof.
  intros Hrepo Habs Hroot Hexists Hmk Hlock Hload Hpat fn Hi Hret Hsd Hsa.
  unfold AddFile. rewrite Hrepo, Habs, Hroot, Hexists.
  unfold UpdateIndexWithMeta. rewrite Hmk, Hlock, Hload.
  unfold AddFile_fn. rewrite Hpat. cbn [tx_index].
  destruct (Walk_spec fn absInputPath (mkTxn index out1))
    as (r & s' & Hrun & _ & _ & Hstop & _).
  destruct (Hstop i v pre e Hi Hret Hsd) as [_ Hwalk].
  fold fn. rewrite Hwalk, Hsa. done.
Qed.

(** C6.  [AddFile] returns at once, without writing, any error met while
    resolving the paths, loading the ignore rules, walking ([os.Lstat] or a
    directory listing failed), relating a path to the repository root, or
    hashing a file.  In [AddAll] a file that cannot be hashed is reported by
    a warning and its call returns [nil], so that the walk goes on; [AddAll]
    succeeds whenever [filepath.Walk] itself reports no error, and the entry
    the index had for that path is still there after the pass. *)
Theorem staging_failure_modes (inputPath : string) (d : IndexFile) (out : list Event) :
  (Stat_IsNotExist RepoDir = false →
   (∀ err, filepath_Abs inputPath = inl err →
      AddFile inputPath d out
      = (Some (Errorf_w "failed to resolve absolute path: " err), d, out))
   ∧ (∀ absInputPath err,
        filepath_Abs inputPath = inr absInputPath → filepath_Abs "." = inl err →
        AddFile inputPath d out
        = (Some (Errorf_w "failed to resolve repo root: " err), d, out))
   ∧ (∀ absInputPath absRepoRoot,
        filepath_Abs inputPath = inr absInputPath →
        filepath_Abs "." = inr absRepoRoot →
        Stat_IsNotExist absInputPath = true →
        AddFile inputPath d out
        = (Some (errorString ("path does not exist: " +:+ inputPath)), d, out)))
  ∧ (∀ absInputPath absRepoRoot index out1,
       Stat_IsNotExist RepoDir = false →
       filepath_Abs inputPath = inr absInputPath →
       filepath_Abs "." = inr absRepoRoot →
       Stat_IsNotExist absInputPath = false →
       MkdirAll_err = None →
       lock_err = None →
       LoadIndexWithMeta d out = (inr index, out1) →
       (∀ err, LoadIgnorePatterns = inl err →
          AddFile inputPath d out = (Some err, d, out1))
       ∧ ∀ ignorePatterns,
           LoadIgnorePatterns = inr ignorePatterns →
           let proxyIndex := hash_view index in
           ∀ i fullPath arg pre,
             Walk_log (AddFile_walkFn absRepoRoot ignorePatterns proxyIndex)
                      absInputPath (mkTxn index out1) !! i
             = Some ((fullPath, arg), pre) →
             (∀ info err, arg = Failed info err →
                AddFile inputPath d out = (Some err, d, tx_out pre))
             ∧ (∀ info err, arg = Entry info →
                  filepath_Rel absRepoRoot fullPath = inl err →
                  AddFile inputPath d out
                  = (Some (errorString ("file " +:+ fullPath +:+ " is outside repository")),
                     d, tx_out pre))
             ∧ (∀ cleanPath info err,
                  accepted absRepoRoot ignorePatterns proxyIndex (fullPath, arg)
                  = Some (cleanPath, info) →
                  metadata_matches (tx_index pre) cleanPath info = false →
                  HashAndStoreFile fullPath = inl err →
                  AddFile inputPath d out
                  = (Some (Errorf_w ("failed to hash " +:+ fullPath +:+ ": ") err),
                     d, tx_out pre ++ [Hashed fullPath])))
  ∧ (∀ (t : Txn) ignorePatterns rootDir,
       range_enumerates →
       LoadIgnorePatterns = inr ignorePatterns →
       filepath_Abs "." = inr rootDir →
       let proxyIndex := hash_view (tx_index t) in
       (∀ fullPath arg cleanPath info err (p : Pass),
          accepted rootDir ignorePatterns proxyIndex (fullPath, arg)
          = Some (cleanPath, info) →
          metadata_matches (ps_index p) cleanPath info = false →
          HashAndStoreFile fullPath = inl err →
          AddAll_walkFn rootDir ignorePatterns proxyIndex fullPath arg p
          = (None,
             mkPass (ps_index p) (<[cleanPath := true]> (ps_seen p))
                    (ps_out p ++ [Hashed fullPath; hash_warning cleanPath err])))
       ∧ ((∀ v info err, v ∈ AddAll_visits rootDir → v.2 ≠ Failed info err) →
          ∃ t', AddAll_fn t = (None, t'))
       ∧ (∀ t' i v cleanPath info err,
            AddAll_fn t = (None, t') →
            AddAll_visits rootDir !! i = Some v →
            accepted rootDir ignorePatterns proxyIndex v = Some (cleanPath, info) →
            NoDup (eligible_paths rootDir (AddAll_visits rootDir)) →
            entry_matches (tx_index t !! cleanPath) info = false →
            HashAndStoreFile v.1 = inl err →
            tx_index t' !! cleanPath = tx_index t !! cleanPath
            ∧ hash_warning cleanPath err ∈ tx_out t')).
Proof.
  split_and!.
  - intros Hrepo. unfold AddFile. rewrite Hrepo. split_and!.
    + by intros err ->.
    + by intros absInputPath err -> ->.
    + by intros absInputPath absRepoRoot -> -> ->.
  - intros absInputPath absRepoRoot index out1 Hrepo Habs Hroot Hexists Hmk Hlock Hload.
    split.
    { intros err Hpat. unfold AddFile. rewrite Hrepo, Habs, Hroot, Hexists.
      unfold UpdateIndexWithMeta. rewrite Hmk, Hlock, Hload.
      unfold AddFile_fn. by rewrite Hpat. }
    intros ignorePatterns Hpat proxyIndex i fullPath arg pre Hi.
    set (fn := AddFile_walkFn absRepoRoot ignorePatterns proxyIndex) in *.
    pose proof (AddFile_aborts inputPath d out absInputPath absRepoRoot index out1
                  ignorePatterns i (fullPath, arg) pre) as Habort.
    cbn zeta in Habort. fold proxyIndex fn in Habort.
    split_and!.
    + intros info err ->.
      destruct (Walk_spec fn absInputPath (mkTxn index out1))
        as (r & s' & _ & _ & _ & _ & Htree).
      eapply Forall_lookup_1 in Htree; [| exact Hi]. destruct Htree as [n Hn].
      cbn in Hn. symmetry in Hn. apply walk_arg_Failed in Hn as [msg ->].
      by rewrite (Habort (PathError msg)).
    + intros info err -> Hrel.
      rewrite (Habort (errorString ("file " +:+ fullPath +:+ " is outside repository")));
        try done.
      * unfold step, fn. cbn. by rewrite Hrel.
      * unfold ret, fn. cbn. by rewrite Hrel.
    + intros cleanPath info err Hacc Hm Hhash.
      rewrite (Habort (Errorf_w ("failed to hash " +:+ fullPath +:+ ": ") err));
        try done.
      * unfold step, fn. cbn [fst snd].
        by rewrite (AddFile_walkFn_accepted _ _ _ _ _ _ _ _ Hacc), Hm, Hhash.
      * unfold ret, fn. cbn [fst snd].
        by rewrite (AddFile_walkFn_accepted _ _ _ _ _ _ _ _ Hacc), Hm, Hhash.
  - intros t ignorePatterns rootDir Hrange Hpat Habs proxyIndex. split_and!.
    + intros fullPath arg cleanPath info err p Hacc Hm Hhash.
      rewrite AddAll_walkFn_eq. unfold pass_step. rewrite Hacc. cbn [fst].
      unfold stage. rewrite Hm, Hhash.
      assert (AddAll_ctl rootDir fullPath arg = None) as ->; [| done].
      unfold accepted, eligible in Hacc. unfold AddAll_ctl. cbn [fst snd] in Hacc.
      destruct arg as [info0 | info0 err0]; [| done].
      destruct (filepath_Rel rootDir fullPath); [done |]. cbn zeta in *.
      case_bool_decide; [done |].
      destruct (IsSafePath _); cbn [negb] in *; [| done].
      by destruct (in_RepoDir _).
    + intros Hclean. rewrite (AddAll_fn_run t ignorePatterns rootDir Hpat Habs).
      cbn zeta. destruct (AddAll_walk_err rootDir) as [e|] eqn:Herr; [| eauto].
      apply AddAll_walk_err_Failed in Herr as (v & info & Hin & Hv).
      by destruct (Hclean v info e Hin).
    + intros t' i v cleanPath info err Hrun Hi Hacc Hnd Hm Hhash.
      destruct (AddAll_fn_lookup t t' ignorePatterns rootDir Hrange Hpat Habs Hrun)
        as (_ & Hout & Hlook).
      fold proxyIndex in Hout, Hlook.
      assert (Hin : v ∈ AddAll_visits rootDir) by (by eapply list_elem_of_lookup_2).
      split.
      * rewrite Hlook.
        assert (seen_at (ps_seen (foldl (pass_step rootDir ignorePatterns proxyIndex)
                  (mkPass (tx_index t) ∅ (tx_out t)) (AddAll_visits rootDir)))
                  cleanPath = true) as ->.
        { apply fold_seen. right. by exists v, info. }
        rewrite (key_fold_once rootDir ignorePatterns proxyIndex _ cleanPath _ v info)
          by done.
        unfold stage_entry. by rewrite Hm, Hhash.
      * rewrite Hout. apply fold_out_elem. right. exists i, v, cleanPath, info.
        split_and!; [done.. |].
        rewrite (fold_index_before rootDir ignorePatterns proxyIndex _ _ i v cleanPath info)
          by (done || by eapply accepts_eligible).
        unfold stage_events. cbn [ps_index]. rewrite Hm, Hhash.
        apply elem_of_cons. right. by left.
Qed.

End FailureFacts.

(** ** What staging leaves at a path *)

Section Idempotence.
Context `{GoLib} `{Collaborators} `{World}.



End Idempotence.

(** * Further properties *)

(** ** Reading and replacing the index *)

Lemma Hash_updated old newHash : Hash (updated old newHash) = newHash.
Proof. unfold updated. destruct old as [e|]; [| done]. by case_decide. Qed.

Lemma app_cons_neq {A} (l l' : list A) x : l ++ x :: l' ≠ l.
Proof.
  intros Heq. apply (f_equal length) in Heq. rewrite length_app in Heq.
  cbn in Heq. lia.
Qed.

Lemma omap_None_nil {A B} (f : A → option B) (l : list A) :
  (∀ x, x ∈ l → f x = None) → omap f l = [].
Proof.
  induction l as [|x l IH]; intros Hall; [done |].
  cbn. rewrite (Hall x) by (by left). apply IH. intros y Hy. apply Hall. by right.
Qed.

Section MoreStorage.
Context `{GoLib} `{World}.

(** The loop of [WriteIndex] that builds the rich index. *)
Lemma WriteIndex_richIndex (simpleIndex : gmap string string) :
  range_enumerates →
  foldl (λ (richIndex : gmap string IndexEntry) (kv : string * string),
           <[kv.1 := mkIndexEntry kv.2 0 0]> richIndex) ∅ (range simpleIndex)
  = (λ hash, mkIndexEntry hash 0 0) <$> simpleIndex.
Proof.
  intros Hrange. apply map_eq. intros k.
  destruct (foldl_insert_lookup (λ hash, mkIndexEntry hash 0 0) (range simpleIndex) ∅ k)
    as [Hin Hout].
  { by apply NoDup_range_keys. }
  rewrite lookup_fmap. destruct (simpleIndex !! k) as [h|] eqn:He; cbn.
  - apply Hin. by apply elem_of_range.
  - rewrite Hout; [apply lookup_empty |].
    rewrite elem_of_range_keys by done. rewrite He. by intros [? ?].
Qed.

(** X1.  [LoadIndex] is [LoadIndexWithMeta] seen through the hashes: an
    error of the load is returned as it is, and a loaded index comes back
    as the map with the same keys, each with the [Hash] of its entry; what
    the load printed is printed. *)
Theorem LoadIndex_view (d : IndexFile) (out : list Event) :
  range_enumerates →
  match LoadIndexWithMeta d out with
  | (inl err, out') => LoadIndex d out = (inl err, out')
  | (inr index, out') =>
    ∃ simpleIndex : gmap string string,
      LoadIndex d out = (inr simpleIndex, out')
      ∧ ∀ path, simpleIndex !! path = Hash <$> index !! path
  end.
Proof.
  intros Hrange. unfold LoadIndex.
  destruct (LoadIndexWithMeta d out) as [[err|index] out']; [done |].
  exists (hash_view index). split; [done |]. intros path.
  by rewrite hash_view_fmap, lookup_fmap.
Qed.

(** X2.  [UpdateIndexWithMeta] writes all or nothing: whatever error it
    returns (from creating the directory, the lock, the load, the callback,
    the encoder or the write), the index file is the one it found; and when
    it returns [nil], the file holds the encoding of the index the callback
    left, and the output is the callback's. *)
Theorem UpdateIndexWithMeta_all_or_nothing
    (fn : Txn → option error * Txn) (d : IndexFile) (out : list Event) :
  match UpdateIndexWithMeta fn d out with
  | (Some _, d', _) => d' = d
  | (None, d', out') =>
    ∃ index out1 t data,
      LoadIndexWithMeta d out = (inr index, out1)
      ∧ fn (mkTxn index out1) = (None, t)
      ∧ json_MarshalIndent (tx_index t) = inr data
      ∧ d' = FileBytes data
      ∧ out' = tx_out t
  end.
Proof.
  unfold UpdateIndexWithMeta.
  destruct MkdirAll_err; [done |]. destruct lock_err; [done |].
  destruct (LoadIndexWithMeta d out) as [[err|index] out1] eqn:Hload; [done |].
  destruct (fn (mkTxn index out1)) as [[err|] t] eqn:Hfn; [done |].
  destruct (json_MarshalIndent (tx_index t)) as [err|data] eqn:Hdata; [done |].
  unfold SafeWriteFile. destruct SafeWriteFile_err; [done |].
  by exists index, out1, t, data.
Qed.

(** X3.  [WriteIndex] replaces the index without reading it: on an error
    the file is the one found; otherwise it holds the encoding of the map
    given, each hash in an entry with [ModTime] and [Size] zero, whatever
    the file held before (nothing, unreadable bytes, a corrupt document).
    The error returned does not depend on the file found either. *)
Theorem WriteIndex_replaces (simpleIndex : gmap string string) (d : IndexFile) :
  range_enumerates →
  match WriteIndex simpleIndex d with
  | (Some _, d') => d' = d
  | (None, d') =>
    ∃ data,
      json_MarshalIndent ((λ hash, mkIndexEntry hash 0 0) <$> simpleIndex) = inr data
      ∧ d' = FileBytes data
      ∧ ∀ d0, WriteIndex simpleIndex d0 = (None, FileBytes data)
  end
  ∧ ∀ d0, (WriteIndex simpleIndex d0).1 = (WriteIndex simpleIndex d).1.
Proof.
  intros Hrange. unfold WriteIndex. cbv zeta.
  rewrite (WriteIndex_richIndex _ Hrange).
  destruct MkdirAll_err; [done |]. destruct lock_err; [done |].
  destruct (json_MarshalIndent _) as [err|data] eqn:Hdata; [done |].
  unfold SafeWriteFile. destruct SafeWriteFile_err; [done |].
  split; [| done]. by exists data.
Qed.

(** X5.  After [UpdateIndex] the hashes of the rich index are exactly the
    map the legacy callback left: the same keys, each with the hash the
    callback gave it. *)
Theorem UpdateIndex_view
    fn (t : Txn) (proxy : gmap string string) out' :
  range_enumerates →
  fn (hash_view (tx_index t)) (tx_out t) = (None, proxy, out') →
  ∃ realIndex : gmap string IndexEntry,
    UpdateIndex_fn fn t = (None, mkTxn realIndex out')
    ∧ hash_view realIndex = proxy
    ∧ ∀ path, Hash <$> realIndex !! path = proxy !! path.
Proof.
  intros Hrange Hfn.
  destruct (UpdateIndex_fn_lookup fn t proxy out' Hrange Hfn) as (realIndex & Hrun & Hlook).
  assert (Hview : ∀ path, Hash <$> realIndex !! path = proxy !! path).
  { intros path. rewrite Hlook. destruct (proxy !! path) as [h|]; [| done].
    cbn. by rewrite Hash_updated. }
  exists realIndex. split_and!; [done | | done].
  rewrite hash_view_fmap by done. apply map_eq. intros path.
  by rewrite lookup_fmap.
Qed.

(** X6.  A legacy callback that returns the map as it received it leaves
    the rich index as it was, [ModTime] and [Size] of every entry
    included. *)
Theorem UpdateIndex_unchanged fn (t : Txn) out' :
  range_enumerates →
  fn (hash_view (tx_index t)) (tx_out t) = (None, hash_view (tx_index t), out') →
  UpdateIndex_fn fn t = (None, mkTxn (tx_index t) out').
Proof.
  intros Hrange Hfn.
  destruct (UpdateIndex_fn_lookup fn t _ out' Hrange Hfn) as (realIndex & Hrun & Hlook).
  rewrite Hrun. do 2 f_equal. apply map_eq. intros path.
  rewrite Hlook, hash_view_fmap, lookup_fmap by done.
  destruct (tx_index t !! path) as [e|]; [| done].
  cbn. unfold updated. by rewrite decide_True.
Qed.

End MoreStorage.

Section MoreLoad.
Context `{GoLib}.

Lemma warning_for_load_one path rawValue :
  warning_for (path, rawValue)
  = match load_one path rawValue with
    | Skipped true => Some (unknown_format_warning path)
    | _ => None
    end.
Proof.
  unfold warning_for, load_one. cbn [fst snd].
  destruct (first_significant_byte rawValue) as [c|]; [| done].
  destruct (Ascii.eqb c quote); cbn [orb].
  { by destruct (json_Unmarshal_string _). }
  destruct (Ascii.eqb c brace); [| done].
  by destruct (json_Unmarshal_IndexEntry _).
Qed.

(** What a load that runs to its end has printed. *)
Lemma load_entries_out kvs index out index' out' :
  load_entries kvs index out = (inr index', out') →
  out' = out ++ omap warning_for kvs.
Proof.
  revert index out. induction kvs as [|[p r] kvs IH]; intros index out.
  { cbn. intros [= _ <-]. by rewrite app_nil_r. }
  rewrite load_entries_cons. cbn [omap list_omap]. rewrite warning_for_load_one.
  destruct (load_one p r) as [entry|[]|err]; [apply IH | | apply IH | done].
  intros Hrun. apply IH in Hrun. by rewrite <- app_assoc in Hrun.
Qed.

(** X7.  A load that succeeds prints one warning for each value of the file
    whose first significant byte is neither a quote nor an opening brace,
    after what was printed before, and nothing else; a file whose values
    all start like a string or an object loads without a word. *)
Theorem LoadIndexWithMeta_warnings content rawMap index out out' :
  range_enumerates →
  content ≠ EmptyString →
  json_Unmarshal_rawMap content = inr rawMap →
  LoadIndexWithMeta (FileBytes content) out = (inr index, out') →
  ∃ warnings,
    out' = out ++ warnings
    ∧ warnings ≡ₚ omap warning_for (map_to_list rawMap)
    ∧ ((∀ path rawValue c, rawMap !! path = Some rawValue →
          first_significant_byte rawValue = Some c → c = quote ∨ c = brace) →
       out' = out).
Proof.
  intros Hrange Hne Hraw Hrun.
  rewrite (LoadIndexWithMeta_content content rawMap out Hne Hraw) in Hrun.
  apply load_entries_out in Hrun.
  exists (omap warning_for (range rawMap)). split_and!.
  - done.
  - by rewrite (Hrange _ rawMap).
  - intros Hknown. rewrite Hrun, omap_None_nil; [by rewrite app_nil_r |].
    intros [path rawValue] Hin. apply (elem_of_range Hrange) in Hin.
    unfold warning_for. cbn [fst snd].
    destruct (first_significant_byte rawValue) as [c|] eqn:Hc; [| done].
    by destruct (Hknown path rawValue c Hin Hc) as [-> | ->].
Qed.

(** X8.  An index file in the legacy format, each value a bare hash string,
    loads without a warning as entries with those hashes and with [ModTime]
    and [Size] zero; [LoadIndex] returns the map of the hashes as the file
    has it. *)
Theorem LoadIndex_legacy_file content rawMap (hashes : gmap string string) out :
  range_enumerates →
  content ≠ EmptyString →
  json_Unmarshal_rawMap content = inr rawMap →
  (∀ path rawValue, rawMap !! path = Some rawValue →
     first_significant_byte rawValue = Some quote
     ∧ ∃ hash, json_Unmarshal_string (bytes_TrimSpace rawValue) = inr hash
               ∧ hashes !! path = Some hash) →
  (∀ path, rawMap !! path = None → hashes !! path = None) →
  LoadIndexWithMeta (FileBytes content) out
  = (inr ((λ hash, mkIndexEntry hash 0 0) <$> hashes), out)
  ∧ LoadIndex (FileBytes content) out = (inr hashes, out).
Proof.
  intros Hrange Hne Hraw Hlegacy Hkeys.
  assert (Hquote : ∀ path rawValue, rawMap !! path = Some rawValue →
            first_significant_byte rawValue = Some quote).
  { intros path rawValue Hlook. by destruct (Hlegacy path rawValue Hlook). }
  assert (Hdec : ∀ path rawValue, rawMap !! path = Some rawValue → decodes rawValue).
  { intros path rawValue Hlook. destruct (Hlegacy path rawValue Hlook) as (Hq & hash & Hh & _).
    split; [eauto |]. rewrite Hq. intros Hbad. by vm_compute in Hbad. }
  destruct (LoadIndexWithMeta_ok content rawMap out Hrange Hne Hraw Hdec)
    as (index & out' & Hrun & Hvalues & Hdom).
  assert (out' = out) as ->.
  { pose proof Hrun as Hrun'.
    rewrite (LoadIndexWithMeta_content content rawMap out Hne Hraw) in Hrun'.
    apply load_entries_out in Hrun'. rewrite Hrun', omap_None_nil; [by rewrite app_nil_r |].
    intros [path rawValue] Hin. apply (elem_of_range Hrange) in Hin.
    unfold warning_for. cbn [fst snd]. by rewrite (Hquote path rawValue Hin). }
  assert (index = (λ hash, mkIndexEntry hash 0 0) <$> hashes) as ->.
  { apply map_eq. intros path. rewrite lookup_fmap.
    destruct (rawMap !! path) as [rawValue|] eqn:Hlook.
    - destruct (Hlegacy path rawValue Hlook) as (Hq & hash & Hh & ->).
      destruct (Hvalues path rawValue Hlook) as (Hstored & _).
      destruct (Hstored Hq) as (hash' & Hh' & ->). cbn. congruence.
    - rewrite (Hkeys path Hlook). cbn. apply not_elem_of_dom. intros Hin.
      apply Hdom in Hin. by apply not_elem_of_dom in Hlook. }
  split; [done |]. unfold LoadIndex. rewrite Hrun, hash_view_fmap by done.
  do 2 f_equal. apply map_eq. intros k. rewrite !lookup_fmap. by destruct (hashes !! k).
Qed.

End MoreLoad.

(** ** Reading back what was written *)

Section ReadBack.
Context `{GoLib}.


End ReadBack.

Section RoundTrip.
Context `{GoLib} `{World}.


End RoundTrip.

(** ** Staging: what the two walks do to the index *)

Section MoreStaging.
Context `{GoLib} `{Collaborators} `{World}.

(** What an accepted call is about. *)
Lemma accepted_inv root ignorePatterns proxyIndex v k info :
  accepted root ignorePatterns proxyIndex v = Some (k, info) →
  v.2 = Entry info
  ∧ (∃ relPath, filepath_Rel root v.1 = inr relPath ∧ k = filepath_Clean relPath)
  ∧ k ≠ "."
  ∧ IsSafePath k = true
  ∧ in_RepoDir k = false
  ∧ fi_IsDir info = false
  ∧ ShouldIgnore k ignorePatterns proxyIndex = false.
Proof.
  unfold accepted, eligible. destruct v as [fullPath arg]. cbn [fst snd].
  destruct arg as [info0 | info0 err]; [| done].
  destruct (filepath_Rel root fullPath) as [e|relPath]; [done |]. cbn zeta.
  case_bool_decide as Hdot; [done |].
  destruct (IsSafePath _) eqn:Hsafe; cbn [negb]; [| done].
  destruct (in_RepoDir _) eqn:Hin; [done |].
  destruct (fi_IsDir info0) eqn:Hdir; [done |].
  destruct (ShouldIgnore _ _ _) eqn:Hign; [done |].
  intros [= <- <-]. split_and!; eauto.
Qed.

(** One call leaves the entry at a key as it is, or puts there the entry of
    the file it hashed. *)
Lemma key_step_cases root ignorePatterns proxyIndex k old v :
  key_step root ignorePatterns proxyIndex k old v = old
  ∨ ∃ info hash,
      accepted root ignorePatterns proxyIndex v = Some (k, info)
      ∧ entry_matches old info = false
      ∧ HashAndStoreFile v.1 = inr hash
      ∧ key_step root ignorePatterns proxyIndex k old v = Some (entry_of hash info).
Proof.
  unfold key_step.
  destruct (accepted root ignorePatterns proxyIndex v) as [[c info]|]; [| by left].
  case_decide as Hc; [subst c | by left]. unfold stage_entry.
  destruct (entry_matches old info) eqn:Hm; [by left |].
  destruct (HashAndStoreFile v.1) as [e|hash] eqn:Hhash; [by left |].
  right. by exists info, hash.
Qed.

Lemma key_fold_cases root ignorePatterns proxyIndex visits k old :
  foldl (key_step root ignorePatterns proxyIndex k) old visits = old
  ∨ ∃ v info hash,
      v ∈ visits
      ∧ accepted root ignorePatterns proxyIndex v = Some (k, info)
      ∧ HashAndStoreFile v.1 = inr hash
      ∧ foldl (key_step root ignorePatterns proxyIndex k) old visits
        = Some (entry_of hash info).
Proof.
  induction visits as [|v visits IH] using rev_ind; [by left |].
  rewrite foldl_app. cbn [foldl].
  destruct (key_step_cases root ignorePatterns proxyIndex k
              (foldl (key_step root ignorePatterns proxyIndex k) old visits) v)
    as [-> | (info & hash & Hacc & _ & Hhash & ->)].
  - destruct IH as [-> | (v' & info & hash & Hin & Hacc & Hhash & ->)]; [by left |].
    right. exists v', info, hash. split_and!; [| done..].
    apply elem_of_app. by left.
  - right. exists v, info, hash. split_and!; [| done..].
    apply elem_of_app. right. by left.
Qed.

(** [AddFile_fn] as a fold over the calls of its walk. *)
Lemma AddFile_fn_fold absInputPath absRepoRoot (t : Txn) ignorePatterns :
  LoadIgnorePatterns = inr ignorePatterns →
  (AddFile_fn absInputPath absRepoRoot t).2
  = foldl (file_step absRepoRoot ignorePatterns (hash_view (tx_index t))) t
      (Walk_log (AddFile_walkFn absRepoRoot ignorePatterns (hash_view (tx_index t)))
                absInputPath t).*1.
Proof.
  intros Hpat. unfold AddFile_fn. rewrite Hpat.
  set (fn := AddFile_walkFn absRepoRoot ignorePatterns (hash_view (tx_index t))).
  destruct (Walk_spec fn absInputPath t) as (r0 & t0 & Hwalk & Hchain & _).
  rewrite Hwalk. cbn [snd]. apply chain_foldl in Hchain. rewrite Hchain.
  subst fn. apply AddFile_steps.
Qed.

(** The keys [seen] holds after the walk of [AddAll]. *)
Lemma AddAll_seen rootDir ignorePatterns proxyIndex index out k :
  seen_at (ps_seen (foldl (pass_step rootDir ignorePatterns proxyIndex)
                          (mkPass index ∅ out) (AddAll_visits rootDir))) k = true
  ↔ ∃ v info, v ∈ AddAll_visits rootDir
              ∧ accepted rootDir ignorePatterns proxyIndex v = Some (k, info).
Proof.
  rewrite fold_seen. cbn. unfold seen_at at 1. rewrite lookup_empty. cbn.
  split; [by intros [? | ?] | by right].
Qed.

(** A call that reports an error of the walk ends the walk of [AddAll]
    with that error. *)
Lemma AddAll_walk_err_of_Failed rootDir v info e :
  v ∈ AddAll_visits rootDir → v.2 = Failed info e →
  AddAll_walk_err rootDir = Some e.
Proof.
  unfold AddAll_visits, AddAll_walk_err. intros Hin Hv.
  set (fn := λ path arg (_ : unit), (AddAll_ctl rootDir path arg, tt)) in *.
  destruct (Walk_spec fn rootDir tt) as (r & s' & _ & _ & _ & Hstop & Htree).
  apply list_elem_of_fmap in Hin as ([v' pre] & -> & Hin). cbn [fst] in *.
  apply list_elem_of_lookup_1 in Hin as [i Hi].
  eapply Forall_lookup_1 in Htree; [| exact Hi]. destruct Htree as [n Hn].
  cbn [fst snd] in Hn. rewrite Hv in Hn. symmetry in Hn.
  apply walk_arg_Failed in Hn as [msg ->].
  destruct (Hstop i v' pre (PathError msg) Hi) as [_ Hwalk]; [| done |].
  { unfold ret, fn. cbn [fst]. unfold AddAll_ctl. by rewrite Hv. }
  by rewrite Hwalk.
Qed.

(** X9.  The callbacks of [AddFile] and [AddAll] apply the same tests in
    a different order, with the same effect: called for the same path on
    the same index, they leave the same index, and one hashes the file
    exactly when the other does. *)
Theorem callbacks_agree root ignorePatterns proxyIndex fullPath arg
    (t : Txn) (p : Pass) :
  ps_index p = tx_index t →
  let t' := (AddFile_walkFn root ignorePatterns proxyIndex fullPath arg t).2 in
  let p' := (AddAll_walkFn root ignorePatterns proxyIndex fullPath arg p).2 in
  ps_index p' = tx_index t'
  ∧ (tx_out t' = tx_out t ∨ tx_out t' = tx_out t ++ [Hashed fullPath])
  ∧ (tx_out t' = tx_out t ↔ ps_out p' = ps_out p)
  ∧ (tx_out t' = tx_out t ++ [Hashed fullPath]
     ↔ ∃ rest, ps_out p' = ps_out p ++ Hashed fullPath :: rest).
Proof.
  intros Hidx. cbn zeta. rewrite AddFile_walkFn_state, AddAll_walkFn_eq. cbn [snd].
  unfold file_step, pass_step.
  assert (Hno : ∀ (l : list Event) ev, l = l ++ [ev] → False).
  { intros l ev Heq. symmetry in Heq. by apply app_cons_neq in Heq. }
  assert (Hno' : ∀ l : list Event, (∃ rest, l = l ++ Hashed fullPath :: rest) → False).
  { intros l [rest Heq]. symmetry in Heq. by apply app_cons_neq in Heq. }
  destruct (accepted root ignorePatterns proxyIndex (fullPath, arg)) as [[c info]|].
  2: { split_and!; [done | by left | done |].
       split; [intros Heq; by apply Hno in Heq | intros Hex; by apply Hno' in Hex]. }
  cbn [fst]. unfold file_stage, stage. rewrite Hidx.
  destruct (metadata_matches (tx_index t) c info).
  { cbn. split_and!; [done | by left | done |].
    split; [intros Heq; by apply Hno in Heq | intros Hex; by apply Hno' in Hex]. }
  destruct (HashAndStoreFile fullPath) as [e|hash]; cbn.
  - split_and!; [done | by right | | split; eauto].
    split; intros Heq; exfalso; by apply app_cons_neq in Heq.
  - split_and!; [done | by right | | split; eauto].
    split; intros Heq; exfalso; by apply app_cons_neq in Heq.
Qed.

(** X10.  [AddFile] only adds: whatever it returns, every key the index
    had is still there, and an entry that is not the one the index had is
    the entry of a file of the walk that was accepted under that key and
    hashed with success: its hash, its modification time and its size. *)
Theorem AddFile_only_adds absInputPath absRepoRoot (t : Txn) ignorePatterns :
  LoadIgnorePatterns = inr ignorePatterns →
  let t' := (AddFile_fn absInputPath absRepoRoot t).2 in
  let proxyIndex := hash_view (tx_index t) in
  let visits :=
    (Walk_log (AddFile_walkFn absRepoRoot ignorePatterns proxyIndex) absInputPath t).*1 in
  (∀ k, is_Some (tx_index t !! k) → is_Some (tx_index t' !! k))
  ∧ ∀ k, tx_index t' !! k = tx_index t !! k
       ∨ ∃ v info hash,
           v ∈ visits
           ∧ accepted absRepoRoot ignorePatterns proxyIndex v = Some (k, info)
           ∧ HashAndStoreFile v.1 = inr hash
           ∧ tx_index t' !! k = Some (entry_of hash info).
Proof.
  intros Hpat. cbn zeta. rewrite (AddFile_fn_fold _ _ _ _ Hpat). split.
  - intros k Hk. rewrite file_fold_index. by apply key_fold_is_Some.
  - intros k. rewrite file_fold_index. apply key_fold_cases.
Qed.

(** X11.  After a successful [AddAll] every key of the index is the
    canonical path, relative to the root, of a file the walk was called
    for: not the root, not the metadata directory nor anything in it, not a
    directory, a path the safety check accepts and the ignore rules do not
    match.  Its entry is the one the index had, or that of such a file
    after it was hashed with success. *)
Theorem AddAll_index_invariant (t t' : Txn) ignorePatterns rootDir :
  range_enumerates →
  LoadIgnorePatterns = inr ignorePatterns →
  filepath_Abs "." = inr rootDir →
  AddAll_fn t = (None, t') →
  ∀ k entry, tx_index t' !! k = Some entry →
    (∃ fullPath info relPath,
       (fullPath, Entry info) ∈ AddAll_visits rootDir
       ∧ filepath_Rel rootDir fullPath = inr relPath
       ∧ k = filepath_Clean relPath
       ∧ k ≠ "."
       ∧ in_RepoDir k = false
       ∧ fi_IsDir info = false
       ∧ IsSafePath k = true
       ∧ ShouldIgnore k ignorePatterns (hash_view (tx_index t)) = false)
    ∧ (tx_index t !! k = Some entry
       ∨ ∃ v info hash,
           v ∈ AddAll_visits rootDir
           ∧ accepted rootDir ignorePatterns (hash_view (tx_index t)) v = Some (k, info)
           ∧ HashAndStoreFile v.1 = inr hash
           ∧ entry = entry_of hash info).
Proof.
  intros Hrange Hpat Habs Hrun k entry Hk.
  destruct (AddAll_fn_lookup t t' ignorePatterns rootDir Hrange Hpat Habs Hrun)
    as (_ & _ & Hlook).
  rewrite Hlook in Hk.
  destruct (seen_at _ k) eqn:Hs; [| done]. apply AddAll_seen in Hs as (v & info & Hin & Hacc).
  split.
  - destruct (accepted_inv _ _ _ _ _ _ Hacc)
      as (Harg & (relPath & Hrel & Hclean) & Hdot & Hsafe & Hrepo & Hdir & Hign).
    destruct v as [fullPath arg]. cbn [fst snd] in *. subst arg.
    by exists fullPath, info, relPath.
  - destruct (key_fold_cases rootDir ignorePatterns (hash_view (tx_index t))
                (AddAll_visits rootDir) k (tx_index t !! k))
      as [Hsame | (v' & info' & hash & Hin' & Hacc' & Hhash & Hnew)].
    + left. by rewrite <- Hsame.
    + right. exists v', info', hash. split_and!; [done.. |]. congruence.
Qed.

(** X12.  After a successful [AddAll] over a tree in which no two files
    have the same canonical path, every accepted file the content store
    could hash is in the index, with an entry that carries the size and
    the modification time the file has: the entry the index had when that
    one carried them already, and otherwise a new one with the hash the
    store returned, for a file hashed during the pass. *)
Theorem AddAll_in_sync (t t' : Txn) ignorePatterns rootDir v k info hash :
  range_enumerates →
  LoadIgnorePatterns = inr ignorePatterns →
  filepath_Abs "." = inr rootDir →
  AddAll_fn t = (None, t') →
  NoDup (eligible_paths rootDir (AddAll_visits rootDir)) →
  v ∈ AddAll_visits rootDir →
  accepted rootDir ignorePatterns (hash_view (tx_index t)) v = Some (k, info) →
  HashAndStoreFile v.1 = inr hash →
  ∃ entry,
    tx_index t' !! k = Some entry
    ∧ Size entry = fi_Size info
    ∧ ModTime entry = fi_ModTimeUnix info
    ∧ (entry_matches (tx_index t !! k) info = true → tx_index t !! k = Some entry)
    ∧ (entry_matches (tx_index t !! k) info = false →
       entry = entry_of hash info ∧ Hashed v.1 ∈ tx_out t').
Proof.
  intros Hrange Hpat Habs Hrun Hnd Hin Hacc Hhash.
  destruct (AddAll_fn_lookup t t' ignorePatterns rootDir Hrange Hpat Habs Hrun)
    as (_ & Hout & Hlook).
  assert (Hk : tx_index t' !! k = stage_entry v.1 info (tx_index t !! k)).
  { rewrite Hlook.
    assert (seen_at (ps_seen (foldl (pass_step rootDir ignorePatterns (hash_view (tx_index t)))
              (mkPass (tx_index t) ∅ (tx_out t)) (AddAll_visits rootDir))) k = true) as ->.
    { apply AddAll_seen. eauto. }
    by apply key_fold_once. }
  unfold stage_entry in Hk. rewrite Hhash in Hk.
  destruct (entry_matches (tx_index t !! k) info) eqn:Hm.
  - destruct (tx_index t !! k) as [entry|] eqn:Hold; [| done].
    exists entry. cbn in Hm. apply andb_prop in Hm as [Hs Hmt].
    apply Z.eqb_eq in Hs, Hmt. by split_and!.
  - exists (entry_of hash info). split_and!; [done | done | done | done |].
    intros _. split; [done |].
    apply list_elem_of_lookup_1 in Hin as [i Hi].
    rewrite Hout. apply fold_out_elem. right. exists i, v, k, info.
    split_and!; [done.. |].
    rewrite (fold_index_before rootDir ignorePatterns _ _ _ i v k info)
      by (done || by eapply accepts_eligible).
    unfold stage_events. cbn [ps_index]. rewrite Hm, Hhash. by left.
Qed.

(** X13.  [AddAll] asks the content store only for accepted files whose
    entry does not carry their size and modification time, and prints
    nothing but the warning for such a file the store could not hash; with
    no two files of one canonical path, the entry in question is the one
    the index had before the pass. *)
Theorem AddAll_hashes_only_changed (t : Txn) ignorePatterns rootDir :
  LoadIgnorePatterns = inr ignorePatterns →
  filepath_Abs "." = inr rootDir →
  NoDup (eligible_paths rootDir (AddAll_visits rootDir)) →
  ∀ ev, ev ∈ tx_out (AddAll_fn t).2 →
    ev ∈ tx_out t
    ∨ ∃ v k info,
        v ∈ AddAll_visits rootDir
        ∧ accepted rootDir ignorePatterns (hash_view (tx_index t)) v = Some (k, info)
        ∧ entry_matches (tx_index t !! k) info = false
        ∧ (ev = Hashed v.1
           ∨ ∃ err, HashAndStoreFile v.1 = inl err ∧ ev = hash_warning k err).
Proof.
  intros Hpat Habs Hnd ev Hev.
  rewrite (AddAll_fn_run t ignorePatterns rootDir Hpat Habs) in Hev. cbn zeta in Hev.
  assert (Hev' : ev ∈ ps_out (foldl (pass_step rootDir ignorePatterns (hash_view (tx_index t)))
                   (mkPass (tx_index t) ∅ (tx_out t)) (AddAll_visits rootDir))).
  { by destruct (AddAll_walk_err rootDir). }
  clear Hev. apply fold_out_elem in Hev' as [? | (i & v & k & info & Hi & Hacc & Hev)];
    [by left |].
  right. exists v, k, info.
  rewrite (fold_index_before rootDir ignorePatterns _ _ _ i v k info) in Hev
    by (done || by eapply accepts_eligible).
  cbn [ps_index] in Hev. unfold stage_events in Hev.
  destruct (entry_matches (tx_index t !! k) info); [by apply elem_of_nil in Hev |].
  split_and!; [by eapply list_elem_of_lookup_2 | done | done |].
  destruct (HashAndStoreFile v.1) as [err|hash].
  - apply elem_of_cons in Hev as [-> | Hev]; [by left |].
    apply list_elem_of_singleton in Hev as ->. right. by exists err.
  - apply list_elem_of_singleton in Hev as ->. by left.
Qed.

(** X14.  When the walk of [AddAll] is called with an error for some
    path (a name that could not be examined, a directory that could not be
    listed), [AddAll] returns an error and the index file is the one found,
    whatever was hashed before; and when the transaction got as far as the
    walk, the error returned is that one. *)
Theorem AddAll_walk_failure (d : IndexFile) (out : list Event) rootDir v info e :
  filepath_Abs "." = inr rootDir →
  v ∈ AddAll_visits rootDir →
  v.2 = Failed info e →
  (∃ err out', AddAll d out = (Some err, d, out'))
  ∧ (∀ index out1 ignorePatterns,
       MkdirAll_err = None → lock_err = None →
       LoadIndexWithMeta d out = (inr index, out1) →
       LoadIgnorePatterns = inr ignorePatterns →
       ∃ out', AddAll d out = (Some e, d, out')).
Proof.
  intros Habs Hin Hv.
  pose proof (AddAll_walk_err_of_Failed rootDir v info e Hin Hv) as Herr.
  assert (Hfn : ∀ t, ∃ err t', AddAll_fn t = (Some err, t')
                               ∧ ∀ ignorePatterns, LoadIgnorePatterns = inr ignorePatterns →
                                                   err = e).
  { intros t. destruct LoadIgnorePatterns as [err|ignorePatterns] eqn:Hpat.
    - exists err, t. split; [| done]. unfold AddAll_fn. by rewrite Hpat.
    - rewrite (AddAll_fn_run t ignorePatterns rootDir Hpat Habs). cbn zeta.
      rewrite Herr. eexists e, _. split; [reflexivity | done]. }
  unfold AddAll, UpdateIndexWithMeta. split.
  - destruct MkdirAll_err; [by eauto |]. destruct lock_err; [by eauto |].
    destruct (LoadIndexWithMeta d out) as [[err|index] out1]; [by eauto |].
    destruct (Hfn (mkTxn index out1)) as (err & t' & -> & _). eauto.
  - intros index out1 ignorePatterns -> -> -> Hpat.
    destruct (Hfn (mkTxn index out1)) as (err & t' & -> & Herr').
    rewrite (Herr' ignorePatterns Hpat). eauto.
Qed.

(** X15.  [AddFile] on a regular file that is accepted and whose entry
    does not carry its size and modification time (or that has no entry):
    the file is hashed once, the index written is the one found with, at
    the canonical path of the file, the hash returned and the modification
    time and size of the file, and no error is returned. *)
Theorem AddFile_stages_changed_file
    inputPath (d : IndexFile) (out : list Event) absInputPath absRepoRoot
    (index : gmap string IndexEntry) out1 ignorePatterns size mtime cleanPath hash data :
  Stat_IsNotExist RepoDir = false →
  filepath_Abs inputPath = inr absInputPath →
  filepath_Abs "." = inr absRepoRoot →
  Stat_IsNotExist absInputPath = false →
  MkdirAll_err = None →
  lock_err = None →
  SafeWriteFile_err = None →
  LoadIndexWithMeta d out = (inr index, out1) →
  LoadIgnorePatterns = inr ignorePatterns →
  fs absInputPath = FsFile size mtime →
  let info := mkFileInfo size mtime false in
  accepted absRepoRoot ignorePatterns (hash_view index) (absInputPath, Entry info)
  = Some (cleanPath, info) →
  entry_matches (index !! cleanPath) info = false →
  HashAndStoreFile absInputPath = inr hash →
  json_MarshalIndent (<[cleanPath := mkIndexEntry hash mtime size]> index) = inr data →
  AddFile inputPath d out = (None, FileBytes data, out1 ++ [Hashed absInputPath]).
Proof.
  intros Hrepo Habs Hroot Hexists Hmk Hlock Hwrite Hload Hpat Hfs info Hacc Hm Hhash Hdata.
  unfold AddFile. rewrite Hrepo, Habs, Hroot, Hexists.
  unfold UpdateIndexWithMeta. rewrite Hmk, Hlock, Hload.
  unfold AddFile_fn. rewrite Hpat. cbn [tx_index]. unfold Walk. rewrite Hfs.
  cbn [walk walk_arg]. fold info.
  rewrite (AddFile_walkFn_accepted _ _ _ _ _ _ _ _ Hacc), metadata_matches_entry.
  cbn [tx_index tx_out]. rewrite Hm, Hhash. cbn [tx_index tx_out].
  unfold entry_of. cbn [fi_ModTimeUnix fi_Size info]. rewrite Hdata.
  unfold SafeWriteFile. by rewrite Hwrite.
Qed.

(** X16.  [AddFile] on a path inside the repository that names a regular
    file which is not accepted (a path in the metadata directory, a path
    the safety check refuses, a path the ignore rules match), or that names
    the metadata directory or a directory in it, is the transaction that
    changes nothing: no error of its own, no call of the content store, the
    index found written back.  The [SkipDir] with which the callback
    answers for the directory does not reach the caller. *)
Theorem AddFile_skips_unaccepted
    inputPath (d : IndexFile) (out : list Event) absInputPath absRepoRoot
    (index : gmap string IndexEntry) out1 ignorePatterns relPath :
  Stat_IsNotExist RepoDir = false →
  filepath_Abs inputPath = inr absInputPath →
  filepath_Abs "." = inr absRepoRoot →
  Stat_IsNotExist absInputPath = false →
  LoadIndexWithMeta d out = (inr index, out1) →
  LoadIgnorePatterns = inr ignorePatterns →
  filepath_Rel absRepoRoot absInputPath = inr relPath →
  (∀ size mtime,
     fs absInputPath = FsFile size mtime →
     accepted absRepoRoot ignorePatterns (hash_view index)
              (absInputPath, Entry (mkFileInfo size mtime false)) = None →
     AddFile inputPath d out = UpdateIndexWithMeta (λ t, (None, t)) d out)
  ∧ (∀ size mtime children,
       fs absInputPath = FsDir size mtime None children →
       filepath_Clean relPath ≠ "." →
       in_RepoDir (filepath_Clean relPath) = true →
       AddFile inputPath d out = UpdateIndexWithMeta (λ t, (None, t)) d out).
Proof.
  intros Hrepo Habs Hroot Hexists Hload Hpat Hrel.
  assert (Hnoop : AddFile_fn absInputPath absRepoRoot (mkTxn index out1)
                  = (None, mkTxn index out1) →
                  AddFile inputPath d out = UpdateIndexWithMeta (λ t, (None, t)) d out).
  { intros Hfn. unfold AddFile. rewrite Hrepo, Habs, Hroot, Hexists.
    unfold UpdateIndexWithMeta. by rewrite Hload, Hfn. }
  split.
  - intros size mtime Hfs Hacc. apply Hnoop.
    unfold AddFile_fn. rewrite Hpat. cbn [tx_index]. unfold Walk. rewrite Hfs.
    cbn [walk walk_arg].
    assert (AddFile_walkFn absRepoRoot ignorePatterns (hash_view index) absInputPath
              (Entry (mkFileInfo size mtime false)) (mkTxn index out1)
            = (None, mkTxn index out1)) as ->; [| done].
    unfold accepted, eligible in Hacc. unfold AddFile_walkFn. cbn [fst snd] in Hacc.
    rewrite Hrel in *. cbn zeta in *. cbn [fi_IsDir] in *.
    case_bool_decide; [done |].
    destruct (in_RepoDir _); [done |].
    destruct (IsSafePath _); cbn [negb] in *; [| done].
    by destruct (ShouldIgnore _ _ _).
  - intros size mtime children Hfs Hdot Hin. apply Hnoop.
    unfold AddFile_fn. rewrite Hpat. cbn [tx_index]. unfold Walk. rewrite Hfs.
    rewrite walk_FsDir. unfold AddFile_walkFn at 1. rewrite Hrel. cbn zeta.
    rewrite bool_decide_eq_false_2 by done. by rewrite Hin.
Qed.

(** X17.  An entry with [ModTime] and [Size] zero, as a legacy value, a
    [WriteIndex] or a changed hash in [UpdateIndex] leaves it, is checked
    again by the next staging of its file when the file has a size or a
    modification time other than zero: the file is hashed and, the store
    willing, the entry replaced.  For an empty file with modification time
    zero the entry passes for current: nothing is hashed and the entry
    stays, whatever its hash. *)
Theorem unset_metadata_revalidated root ignorePatterns proxyIndex fullPath arg
    k info entry (t : Txn) (p : Pass) :
  accepted root ignorePatterns proxyIndex (fullPath, arg) = Some (k, info) →
  ModTime entry = 0%Z →
  Size entry = 0%Z →
  tx_index t !! k = Some entry →
  ps_index p !! k = Some entry →
  let t' := (AddFile_walkFn root ignorePatterns proxyIndex fullPath arg t).2 in
  let p' := (AddAll_walkFn root ignorePatterns proxyIndex fullPath arg p).2 in
  (fi_Size info ≠ 0%Z ∨ fi_ModTimeUnix info ≠ 0%Z →
   tx_out t' = tx_out t ++ [Hashed fullPath]
   ∧ (∃ rest, ps_out p' = ps_out p ++ Hashed fullPath :: rest)
   ∧ ∀ hash, HashAndStoreFile fullPath = inr hash →
       tx_index t' = <[k := entry_of hash info]> (tx_index t)
       ∧ ps_index p' = <[k := entry_of hash info]> (ps_index p))
  ∧ (fi_Size info = 0%Z → fi_ModTimeUnix info = 0%Z →
     t' = t ∧ ps_index p' = ps_index p ∧ ps_out p' = ps_out p).
Proof.
  intros Hacc Hmt Hsz Ht Hp. cbn zeta.
  rewrite AddFile_walkFn_state, AddAll_walkFn_eq. cbn [snd].
  unfold file_step, pass_step. rewrite Hacc. cbn [fst].
  unfold file_stage, stage. rewrite !metadata_matches_entry, Ht, Hp.
  cbn [entry_matches]. rewrite Hmt, Hsz. split.
  - intros Hnz.
    assert ((0 =? fi_Size info)%Z && (0 =? fi_ModTimeUnix info)%Z = false) as ->.
    { apply andb_false_iff. destruct Hnz as [Hnz | Hnz]; [left | right];
        apply Z.eqb_neq; lia. }
    destruct (HashAndStoreFile fullPath) as [e|hash]; cbn.
    + split_and!; [done | by eauto | done].
    + split_and!; [done | by eauto |]. by intros ? [= <-].
  - intros Hs0 Hm0. rewrite Hs0, Hm0. cbn. by destruct t.
Qed.

(** X18.  Neither walk goes into the metadata directory: for a directory
    whose canonical path is [RepoDir] or lies in it, the callback answers
    [SkipDir], and the walk of the directory that holds it goes on with the
    next name as if the directory were not there, whatever it contains, with
    the state as it was.  ([AddAll] tests the safety of the path first, so
    there it holds for a path the safety check accepts.) *)
Theorem RepoDir_not_descended root ignorePatterns proxyIndex
    parent name size mtime children rest relPath :
  filepath_Rel root (filepath_Join parent name) = inr relPath →
  filepath_Clean relPath ≠ "." →
  in_RepoDir (filepath_Clean relPath) = true →
  (∀ t : Txn,
     walk_names (AddFile_walkFn root ignorePatterns proxyIndex) parent
                ((name, FsDir size mtime None children) :: rest) t
     = walk_names (AddFile_walkFn root ignorePatterns proxyIndex) parent rest t)
  ∧ (IsSafePath (filepath_Clean relPath) = true →
     ∀ p : Pass,
       walk_names (AddAll_walkFn root ignorePatterns proxyIndex) parent
                  ((name, FsDir size mtime None children) :: rest) p
       = walk_names (AddAll_walkFn root ignorePatterns proxyIndex) parent rest p).
Proof.
  intros Hrel Hdot Hin. split.
  - intros t. cbn [walk_names]. rewrite walk_FsDir.
    unfold AddFile_walkFn at 1. rewrite Hrel. cbn zeta.
    rewrite bool_decide_eq_false_2 by done. rewrite Hin. done.
  - intros Hsafe p. cbn [walk_names]. rewrite walk_FsDir.
    unfold AddAll_walkFn at 1. rewrite Hrel. cbn zeta.
    rewrite bool_decide_eq_false_2 by done. rewrite Hsafe, Hin. done.
Qed.

End MoreStaging.

(** ** Staging the same tree twice *)

Section Restaging.
Context `{GoLib} `{Collaborators} `{World}.



End Restaging.

(** * Worked examples on the instance *)

Section Examples.
Import Sample.
Existing Instances lib repo world.

Lemma range_ok : range_enumerates.
Proof. intros V m. reflexivity. Defined.

Lemma UpdateIndexWithMeta_error_no_write_witness :
  UpdateIndexWithMeta refuse staged []
  = (Some (errorString "refused"), staged, [Printed "tried"]).
Proof.
  apply (UpdateIndexWithMeta_error_no_write refuse staged [] [] staged_index
           (errorString "refused")
           (mkTxn (<["x" := mkIndexEntry "h" 0 0]> staged_index) [Printed "tried"])).
  - reflexivity.
  - reflexivity.
  - vm_compute. reflexivity.
  - vm_compute. reflexivity.
Defined.

Lemma fast_path_keeps_entry_witness :
  (AddFile_walkFn "/repo" patterns ∅ "/repo/a.txt" (Entry a_txt)
     (mkTxn staged_index [])).2 = mkTxn staged_index []
  ∧ (AddAll_walkFn "/repo" patterns ∅ "/repo/a.txt" (Entry a_txt)
       (mkPass staged_index ∅ [])).2 = mkPass staged_index {["a.txt" := true]} [].
Proof.
  destruct (fast_path_keeps_entry "/repo" patterns ∅ "/repo/a.txt" "a.txt" a_txt
              (mkIndexEntry "aaf4c61ddcc5e8a2dabede0f3b482cd9aea9434d" 1700000000 5))
    as (Hfile & Hall & _).
  - vm_compute. reflexivity.
  - reflexivity.
  - reflexivity.
  - split.
    + apply Hfile. vm_compute. reflexivity.
    + vm_compute. reflexivity.
Defined.

Lemma LoadIndexWithMeta_dispatch_witness :
  (∃ hash, json_Unmarshal_string (bytes_TrimSpace (json_text "'h1'")) = inr hash
           ∧ mixed_index !! "a" = Some (mkIndexEntry hash 0 0)
           ∧ Hash <$> mixed_index !! "a" = Some hash)
  ∧ (∃ entry, json_Unmarshal_IndexEntry
                (bytes_TrimSpace (json_text "{'h': 'h2', 'm': 3, 's': 4}")) = inr entry
              ∧ mixed_index !! "b" = Some entry).
Proof.
  destruct (LoadIndexWithMeta_dispatch mixed mixed_rawMap []) as [_ Hdispatch].
  - exact range_ok.
  - vm_compute. discriminate.
  - vm_compute. reflexivity.
  - assert (Hrun : LoadIndexWithMeta (FileBytes mixed) []
                   = (inr mixed_index, [unknown_format_warning "c"])).
    { vm_compute. reflexivity. }
    split.
    + apply (Hdispatch _ _ Hrun "a" (json_text "'h1'")); vm_compute; reflexivity.
    + apply (Hdispatch _ _ Hrun "b" (json_text "{'h': 'h2', 'm': 3, 's': 4}"));
        vm_compute; reflexivity.
Defined.

Lemma mixed_decodes path rawValue :
  mixed_rawMap !! path = Some rawValue → decodes rawValue.
Proof.
  intros Hlook. apply elem_of_map_to_list, list_elem_of_In in Hlook.
  vm_compute in Hlook.
  destruct Hlook as [[= <- <-] | [[= <- <-] | [[= <- <-] | []]]];
    split; intros Hfirst; vm_compute in Hfirst; try discriminate;
    eexists; vm_compute; reflexivity.
Defined.

Lemma LoadIndexWithMeta_tolerance_witness :
  (∃ index out',
     LoadIndexWithMeta (FileBytes mixed) [] = (inr index, out')
     ∧ index !! "c" = None ∧ unknown_format_warning "c" ∈ out'
     ∧ index !! "a" = Some (mkIndexEntry "h1" 0 0))
  ∧ (∃ err out', LoadIndexWithMeta (FileBytes broken) [] = (inl err, out')
                 ∧ IndexCorruption err).
Proof.
  split.
  - destruct (LoadIndexWithMeta_tolerance mixed []) as (Hskips & _ & _).
    + exact range_ok.
    + vm_compute. discriminate.
    + destruct (Hskips mixed_rawMap) as (index & out' & Hrun & Hvalues).
      * vm_compute. reflexivity.
      * exact mixed_decodes.
      * exists index, out'. split; [exact Hrun |].
        destruct (Hvalues "c" "17") as (Hother & _ & _); [vm_compute; reflexivity |].
        destruct (Hother "1"%char) as [Hgone Hwarned];
          [vm_compute; reflexivity | vm_compute; discriminate
          | vm_compute; discriminate |].
        split_and!; [exact Hgone | exact Hwarned |].
        destruct (Hvalues "a" (json_text "'h1'")) as (_ & Hquote & _);
          [vm_compute; reflexivity |].
        destruct Hquote as (hash & Hhash & Hentry); [vm_compute; reflexivity |].
        vm_compute in Hhash. injection Hhash as <-. exact Hentry.
  - destruct (LoadIndexWithMeta_tolerance broken []) as (_ & _ & Hbroken).
    + exact range_ok.
    + vm_compute. discriminate.
    + apply (Hbroken (<["a" := json_text "'h1'"]> (<["b" := json_text "{'h': 7}"]> ∅))
               "b" (json_text "{'h': 7}")).
      * vm_compute. reflexivity.
      * vm_compute. reflexivity.
      * right. split; [vm_compute; reflexivity |]. eexists. vm_compute. reflexivity.
Defined.

Lemma AddAll_sweeps_unseen_witness :
  tx_index after_old !! "old.txt" = None
  ∧ is_Some (tx_index after_old !! "a.txt").
Proof.
  destruct (AddAll_sweeps_unseen with_old after_old patterns "/repo")
    as (p & Hwalk & Hseen & _ & _ & Hkept & Hgone & _).
  - exact range_ok.
  - reflexivity.
  - reflexivity.
  - vm_compute. reflexivity.
  - split.
    + apply Hgone. intros v info Hin. apply list_elem_of_In in Hin. vm_compute in Hin.
      intuition subst; vm_compute; discriminate.
    + apply Hkept.
      * vm_compute. eauto.
      * apply Hseen. exists ("/repo/a.txt", Entry a_txt), a_txt. split.
        -- apply list_elem_of_In. vm_compute. tauto.
        -- vm_compute. reflexivity.
Defined.

Lemma staging_failure_modes_witness :
  AddFile "locked.bin" staged []
  = (Some (Errorf_w "failed to hash /repo/locked.bin: "
             (PathError "open /repo/locked.bin: permission denied")),
     staged, [Hashed "/repo/locked.bin"]).
Proof.
  destruct (staging_failure_modes "locked.bin" staged []) as (_ & Hfile & _).
  destruct (Hfile "/repo/locked.bin" "/repo" staged_index []) as [_ Hwalk];
    [reflexivity | reflexivity | reflexivity | reflexivity | reflexivity | reflexivity
    | vm_compute; reflexivity |].
  destruct (Hwalk patterns eq_refl 0 "/repo/locked.bin"
              (Entry (mkFileInfo 7 1700000060 false)) (mkTxn staged_index []))
    as (_ & _ & Hhash).
  { vm_compute. reflexivity. }
  apply (Hhash "locked.bin" (mkFileInfo 7 1700000060 false)).
  - vm_compute. reflexivity.
  - vm_compute. reflexivity.
  - vm_compute. reflexivity.
Defined.

Lemma UpdateIndex_reconciles_witness :
  ∃ realIndex : gmap string IndexEntry,
    UpdateIndex_fn legacy_edit before_edit = (None, mkTxn realIndex [])
    ∧ realIndex !! "old.txt" = None
    ∧ realIndex !! "new.txt" = Some (mkIndexEntry "h9" 0 0).
Proof.
  destruct (UpdateIndex_reconciles legacy_edit before_edit edited_proxy [])
    as (realIndex & Hrun & Hdeleted & Hfresh).
  - exact range_ok.
  - vm_compute. reflexivity.
  - exists realIndex. split_and!; [done | |].
    + apply Hdeleted; vm_compute; eauto.
    + apply Hfresh; vm_compute; [reflexivity | discriminate].
Defined.

Lemma UpdateIndex_keeps_metadata_witness :
  ∃ realIndex : gmap string IndexEntry,
    UpdateIndex_fn legacy_edit before_edit = (None, mkTxn realIndex [])
    ∧ realIndex !! "keep.txt" = Some (mkIndexEntry "h2" 33 44).
Proof.
  destruct (UpdateIndex_keeps_metadata legacy_edit before_edit edited_proxy [])
    as (realIndex & Hrun & Hkept & _).
  - exact range_ok.
  - vm_compute. reflexivity.
  - exists realIndex. split; [done |].
    apply Hkept; vm_compute; reflexivity.
Defined.

(** C7.  [AddFile] refuses to work where the marker directory is missing,
    and [AddAll] does not: in a directory that holds one file and no
    [.kitcat], [AddAll] returns no error and writes an index with that
    file. *)
Theorem AddAll_without_marker :
  @Stat_IsNotExist bare_world RepoDir = true
  ∧ @AddFile lib repo bare_world "a.txt" NoFile []
    = (Some (errorString "not a kitcat repository (run `kitcat init`)"), NoFile, [])
  ∧ ∃ data,
      @AddAll lib repo bare_world NoFile [] = (None, FileBytes data, [Hashed "/repo/a.txt"])
      ∧ LoadIndexWithMeta (FileBytes data) []
        = (inr {["a.txt" := mkIndexEntry "aaf4c61ddcc5e8a2dabede0f3b482cd9aea9434d"
                             1700000000 5]}, []).
Proof.
  split_and!; [reflexivity | reflexivity |].
  eexists. split; vm_compute; reflexivity.
Qed.

(** An empty repository with one five-byte file, staged twice: one entry
    with the digest, the size and the modification time of the file; the
    second pass hashes nothing and writes the same bytes. *)
Example stage_then_restage :
  ∃ data,
    @AddAll lib repo bare_world NoFile []
    = (None, FileBytes data, [Hashed "/repo/a.txt"])
    ∧ @AddAll lib repo bare_world (FileBytes data) [] = (None, FileBytes data, []).
Proof. eexists. split; vm_compute; reflexivity. Qed.

End Examples.

(** * Further examples on the instance *)

Section FurtherExamples.
Import Sample.
Existing Instances lib repo world.

Lemma visits_NoDup : NoDup (eligible_paths "/repo" (AddAll_visits "/repo")).
Proof. apply (bool_decide_unpack (NoDup _)). vm_compute. exact I. Defined.

Lemma legacy_values path rawValue :
  legacy_rawMap !! path = Some rawValue →
  first_significant_byte rawValue = Some quote
  ∧ ∃ hash, json_Unmarshal_string (bytes_TrimSpace rawValue) = inr hash
            ∧ legacy_hashes !! path = Some hash.
Proof.
  unfold legacy_rawMap, legacy_hashes. intros Hlook.
  destruct (decide (path = "a.txt")) as [-> | Hne1].
  { rewrite lookup_insert_eq in Hlook. injection Hlook as <-.
    split; [vm_compute; reflexivity |]. exists "h1".
    split; [vm_compute; reflexivity | apply lookup_insert_eq]. }
  rewrite lookup_insert_ne in Hlook by done.
  destruct (decide (path = "src/main.go")) as [-> | Hne2].
  { rewrite lookup_insert_eq in Hlook. injection Hlook as <-.
    split; [vm_compute; reflexivity |]. exists "h2".
    split; [vm_compute; reflexivity |].
    rewrite lookup_insert_ne by done. apply lookup_insert_eq. }
  rewrite lookup_insert_ne in Hlook by done. discriminate.
Defined.

Lemma legacy_keys path : legacy_rawMap !! path = None → legacy_hashes !! path = None.
Proof.
  unfold legacy_rawMap, legacy_hashes. intros Hnone.
  destruct (decide (path = "a.txt")) as [-> | Hne1];
    [by rewrite lookup_insert_eq in Hnone |].
  rewrite lookup_insert_ne in Hnone by done. rewrite lookup_insert_ne by done.
  destruct (decide (path = "src/main.go")) as [-> | Hne2];
    [by rewrite lookup_insert_eq in Hnone |].
  by rewrite lookup_insert_ne.
Defined.

Lemma LoadIndex_view_witness :
  ∃ simpleIndex : gmap string string,
    LoadIndex (FileBytes mixed) [] = (inr simpleIndex, [unknown_format_warning "c"])
    ∧ ∀ path, simpleIndex !! path = Hash <$> mixed_index !! path.
Proof.
  pose proof (LoadIndex_view (FileBytes mixed) [] range_ok) as Hview.
  assert (Hrun : LoadIndexWithMeta (FileBytes mixed) []
                 = (inr mixed_index, [unknown_format_warning "c"])).
  { vm_compute. reflexivity. }
  rewrite Hrun in Hview. exact Hview.
Defined.

Lemma LoadIndexWithMeta_warnings_witness :
  ∃ warnings,
    [unknown_format_warning "c"] = [] ++ warnings
    ∧ warnings ≡ₚ omap warning_for (map_to_list mixed_rawMap)
    ∧ ((∀ path rawValue c, mixed_rawMap !! path = Some rawValue →
          first_significant_byte rawValue = Some c → c = quote ∨ c = brace) →
       [unknown_format_warning "c"] = []).
Proof.
  apply (LoadIndexWithMeta_warnings mixed mixed_rawMap mixed_index []
           [unknown_format_warning "c"]).
  - exact range_ok.
  - vm_compute. discriminate.
  - vm_compute. reflexivity.
  - vm_compute. reflexivity.
Defined.

Lemma LoadIndex_legacy_file_witness :
  LoadIndexWithMeta (FileBytes legacy) []
  = (inr ((λ hash, mkIndexEntry hash 0 0) <$> legacy_hashes), [])
  ∧ LoadIndex (FileBytes legacy) [] = (inr legacy_hashes, []).
Proof.
  apply (LoadIndex_legacy_file legacy legacy_rawMap legacy_hashes []).
  - exact range_ok.
  - vm_compute. discriminate.
  - vm_compute. reflexivity.
  - exact legacy_values.
  - exact legacy_keys.
Defined.

Lemma WriteIndex_replaces_witness :
  ∃ data,
    json_MarshalIndent ((λ hash, mkIndexEntry hash 0 0) <$> legacy_hashes) = inr data
    ∧ WriteIndex legacy_hashes (FileBytes broken) = (None, FileBytes data).
Proof.
  destruct (WriteIndex_replaces legacy_hashes (FileBytes broken) range_ok) as [Hfile _].
  assert (Hrun : WriteIndex legacy_hashes (FileBytes broken) = (None, FileBytes rewritten)).
  { vm_compute. reflexivity. }
  rewrite Hrun in Hfile. destruct Hfile as (data & Hdata & Hbytes & _).
  exists data. split; [exact Hdata |]. rewrite Hrun. f_equal. exact Hbytes.
Defined.


Lemma UpdateIndex_view_witness :
  ∃ realIndex : gmap string IndexEntry,
    UpdateIndex_fn legacy_edit before_edit = (None, mkTxn realIndex [])
    ∧ hash_view realIndex = edited_proxy
    ∧ ∀ path, Hash <$> realIndex !! path = edited_proxy !! path.
Proof.
  apply (UpdateIndex_view legacy_edit before_edit edited_proxy []).
  - exact range_ok.
  - vm_compute. reflexivity.
Defined.

Lemma UpdateIndex_unchanged_witness :
  UpdateIndex_fn legacy_keep before_edit = (None, mkTxn (tx_index before_edit) []).
Proof.
  apply (UpdateIndex_unchanged legacy_keep before_edit []).
  - exact range_ok.
  - reflexivity.
Defined.

Lemma callbacks_agree_witness :
  ps_index (AddAll_walkFn "/repo" patterns ∅ "/repo/a.txt" (Entry a_txt)
              (mkPass ∅ ∅ [])).2
  = tx_index (AddFile_walkFn "/repo" patterns ∅ "/repo/a.txt" (Entry a_txt)
                (mkTxn ∅ [])).2.
Proof.
  destruct (callbacks_agree "/repo" patterns ∅ "/repo/a.txt" (Entry a_txt)
              (mkTxn ∅ []) (mkPass ∅ ∅ []) eq_refl) as [Hindex _].
  exact Hindex.
Defined.

Lemma AddFile_only_adds_witness :
  is_Some (tx_index (AddFile_fn "/repo/src" "/repo" (mkTxn staged_index [])).2 !! "a.txt").
Proof.
  destruct (AddFile_only_adds "/repo/src" "/repo" (mkTxn staged_index []) patterns eq_refl)
    as [Hkept _].
  apply Hkept. vm_compute. eauto.
Defined.

Lemma AddAll_index_invariant_witness :
  ∃ fullPath info relPath,
    (fullPath, Entry info) ∈ AddAll_visits "/repo"
    ∧ filepath_Rel "/repo" fullPath = inr relPath
    ∧ "a.txt" = filepath_Clean relPath
    ∧ in_RepoDir "a.txt" = false
    ∧ fi_IsDir info = false.
Proof.
  destruct (AddAll_index_invariant with_old after_old patterns "/repo")
    with (k := "a.txt")
         (entry := mkIndexEntry "aaf4c61ddcc5e8a2dabede0f3b482cd9aea9434d" 1700000000 5)
    as [(fullPath & info & relPath & Hin & Hrel & Hclean & _ & Hrepo & Hdir & _) _].
  - exact range_ok.
  - reflexivity.
  - reflexivity.
  - vm_compute. reflexivity.
  - vm_compute. reflexivity.
  - exists fullPath, info, relPath. split_and!; assumption.
Defined.

Lemma AddAll_in_sync_witness :
  ∃ entry,
    staged_index !! "a.txt" = Some entry
    ∧ Size entry = 5%Z
    ∧ ModTime entry = 1700000000%Z
    ∧ entry = entry_of "aaf4c61ddcc5e8a2dabede0f3b482cd9aea9434d" a_txt
    ∧ Hashed "/repo/a.txt" ∈ staged_out.
Proof.
  destruct (AddAll_in_sync (mkTxn ∅ []) (mkTxn staged_index staged_out) patterns "/repo"
              ("/repo/a.txt", Entry a_txt) "a.txt" a_txt
              "aaf4c61ddcc5e8a2dabede0f3b482cd9aea9434d")
    as (entry & Hentry & Hsize & Hmtime & _ & Hnew).
  - exact range_ok.
  - reflexivity.
  - reflexivity.
  - vm_compute. reflexivity.
  - exact visits_NoDup.
  - apply list_elem_of_In. vm_compute. tauto.
  - vm_compute. reflexivity.
  - reflexivity.
  - destruct Hnew as [Hfresh Hhashed]; [vm_compute; reflexivity |].
    exists entry. split_and!; assumption.
Defined.

Lemma AddAll_hashes_only_changed_witness :
  Hashed "/repo/a.txt" ∈ []
  ∨ ∃ v k info,
      v ∈ AddAll_visits "/repo"
      ∧ accepted "/repo" patterns (hash_view (∅ : gmap string IndexEntry)) v
        = Some (k, info)
      ∧ entry_matches ((∅ : gmap string IndexEntry) !! k) info = false
      ∧ (Hashed "/repo/a.txt" = Hashed v.1
         ∨ ∃ err, HashAndStoreFile v.1 = inl err
                  ∧ Hashed "/repo/a.txt" = hash_warning k err).
Proof.
  apply (AddAll_hashes_only_changed (mkTxn ∅ []) patterns "/repo").
  - reflexivity.
  - reflexivity.
  - exact visits_NoDup.
  - apply list_elem_of_In. vm_compute. tauto.
Defined.

Lemma AddAll_walk_failure_witness :
  ∃ err out', @AddAll lib repo torn_world NoFile [] = (Some err, NoFile, out').
Proof.
  destruct (@AddAll_walk_failure lib repo torn_world NoFile [] "/repo"
              ("/repo/gone", Failed None (PathError "lstat /repo/gone: input/output error"))
              None (PathError "lstat /repo/gone: input/output error"))
    as [Hfails _].
  - reflexivity.
  - apply list_elem_of_In. vm_compute. tauto.
  - reflexivity.
  - exact Hfails.
Defined.

Lemma AddFile_stages_changed_file_witness :
  ∃ data, AddFile "a.txt" NoFile [] = (None, FileBytes data, [Hashed "/repo/a.txt"]).
Proof.
  eexists.
  apply (AddFile_stages_changed_file "a.txt" NoFile [] "/repo/a.txt" "/repo" ∅ []
           patterns 5 1700000000 "a.txt" "aaf4c61ddcc5e8a2dabede0f3b482cd9aea9434d").
  - reflexivity.
  - reflexivity.
  - reflexivity.
  - reflexivity.
  - reflexivity.
  - reflexivity.
  - reflexivity.
  - reflexivity.
  - reflexivity.
  - vm_compute. reflexivity.
  - vm_compute. reflexivity.
  - reflexivity.
  - reflexivity.
  - vm_compute. reflexivity.
Defined.

Lemma AddFile_skips_unaccepted_witness :
  @AddFile lib repo torn_world "build.log" NoFile []
  = @UpdateIndexWithMeta lib torn_world (λ t, (None, t)) NoFile [].
Proof.
  destruct (@AddFile_skips_unaccepted lib repo torn_world "build.log" NoFile []
              "/repo/build.log" "/repo" ∅ [] patterns "build.log")
    as [Hfile _].
  - reflexivity.
  - reflexivity.
  - reflexivity.
  - reflexivity.
  - reflexivity.
  - reflexivity.
  - vm_compute. reflexivity.
  - apply (Hfile 9%Z 1700000050%Z).
    + reflexivity.
    + vm_compute. reflexivity.
Defined.

Lemma unset_metadata_revalidated_witness :
  tx_out (AddFile_walkFn "/repo" patterns ∅ "/repo/a.txt" (Entry a_txt)
            (mkTxn {["a.txt" := mkIndexEntry "0beec7b5" 0 0]} [])).2
  = [Hashed "/repo/a.txt"].
Proof.
  destruct (unset_metadata_revalidated "/repo" patterns ∅ "/repo/a.txt" (Entry a_txt)
              "a.txt" a_txt (mkIndexEntry "0beec7b5" 0 0)
              (mkTxn {["a.txt" := mkIndexEntry "0beec7b5" 0 0]} [])
              (mkPass {["a.txt" := mkIndexEntry "0beec7b5" 0 0]} ∅ []))
    as [Hchecked _].
  - vm_compute. reflexivity.
  - reflexivity.
  - reflexivity.
  - vm_compute. reflexivity.
  - vm_compute. reflexivity.
  - destruct Hchecked as [Hout _]; [left; vm_compute; discriminate |].
    exact Hout.
Defined.

Lemma RepoDir_not_descended_witness :
  walk_names (AddFile_walkFn "/repo" patterns ∅) "/repo"
             [(".kitcat", FsDir 4096 1700000090 None [("index", FsFile 120 1700000090)]);
              ("a.txt", FsFile 5 1700000000)] (mkTxn ∅ [])
  = walk_names (AddFile_walkFn "/repo" patterns ∅) "/repo"
               [("a.txt", FsFile 5 1700000000)] (mkTxn ∅ []).
Proof.
  destruct (RepoDir_not_descended "/repo" patterns ∅ "/repo" ".kitcat" 4096 1700000090
              [("index", FsFile 120 1700000090)] [("a.txt", FsFile 5 1700000000)] ".kitcat")
    as [Hfile _].
  - vm_compute. reflexivity.
  - vm_compute. discriminate.
  - vm_compute. reflexivity.
  - apply Hfile.
Defined.



End FurtherExamples.
